(** * URL shortener backend: cache, rate limiter, code generator, lookups

    A shallow embedding of [backend/cache.py] and of the request-serving
    functions of [backend/main.py], followed by the properties of the
    design document that concern them.

    Conventions of the embedding.
    - Python [str] is [string], the UTF-8 encoding of its code points;
      [Optional[str]] is [option string].
    - Python [int] is [Z]; a [time.time()] reading is an exact rational [Q]
      (the rounding of float subtraction is not modelled).
    - A Python [dict] is a [gmap]; a SQL table is the list of its rows in
      insertion order; the LRU cache is an association list in recency order.
    - Mutable module state is threaded through a state monad whose outcome
      is a returned value, a raised exception, or [Diverge] when the fuel
      given to a [while True] loop ran out.
    - [with self.lock:] is not modelled: every function runs to completion. *)

From Stdlib Require Import ZArith QArith Qround List String Ascii Lia Lqa.
From stdpp Require Import gmap strings list fin_maps sorting.

Local Open Scope Z_scope.

(** ** Exceptions and the state monad *)

Inductive exn : Type :=
  | KeyError
  | ValueError (msg : string)
  | IndexError
  | HTTPException (status_code : Z).

Inductive outcome (A : Type) : Type :=
  | Return (a : A)
  | Raise (e : exn)
  | Diverge.
Arguments Return {A} a.
Arguments Raise {A} e.
Arguments Diverge {A}.

Definition M (S A : Type) : Type := S -> outcome A * S.

Definition ret {S A : Type} (a : A) : M S A := fun s => (Return a, s).

Definition raise {S A : Type} (e : exn) : M S A := fun s => (Raise e, s).

Definition bind {S A B : Type} (m : M S A) (k : A -> M S B) : M S B :=
  fun s =>
    match m s with
    | (Return a, s') => k a s'
    | (Raise e, s') => (Raise e, s')
    | (Diverge, s') => (Diverge, s')
    end.

Definition gets {S A : Type} (f : S -> A) : M S A := fun s => (Return (f s), s).

Definition modify {S : Type} (f : S -> S) : M S unit := fun s => (Return tt, f s).

(** Run a computation on a component [T] of the state [S]. *)
Definition zoom {S T A : Type} (proj : S -> T) (upd : T -> S -> S) (m : M T A) : M S A :=
  fun s => let '(r, t) := m (proj s) in (r, upd t s).

(** [try: m except Exception: h] *)
Definition try_except {S A : Type} (m : M S A) (h : exn -> M S A) : M S A :=
  fun s =>
    match m s with
    | (Raise e, s') => h e s'
    | r => r
    end.

Declare Scope py_scope.
Delimit Scope py_scope with py.
Notation "x <- m ;; k" := (bind m (fun x => k))
  (at level 100, m at next level, right associativity) : py_scope.
Notation "m ;; k" := (bind m (fun _ => k))
  (at level 100, right associativity) : py_scope.
Local Open Scope py_scope.

(** ** cachetools.LRUCache

    [cache.py] imports [LRUCache] from the third-party package cachetools.
    The class is modelled after the package: [Cache.__setitem__] with the
    default [getsizeof] (every value has size 1), and the recency order kept
    by [LRUCache] in an ordered dictionary, least recently used first. The
    value dictionary and the order dictionary are one association list
    here. *)

Module LRUCache.

Record t : Type := mk { maxsize : Z; data : list (string * option string) }.

Definition init (maxsize : Z) : t := mk maxsize [].

Definition with_data (d : list (string * option string)) (c : t) : t :=
  mk (maxsize c) d.

Fixpoint assoc (key : string) (d : list (string * option string))
    : option (option string) :=
  match d with
  | [] => None
  | (k, v) :: d' => if decide (k = key) then Some v else assoc key d'
  end.

Definition remove_key (key : string) (d : list (string * option string))
    : list (string * option string) :=
  List.filter (fun kv => negb (bool_decide (fst kv = key))) d.

Definition keys (c : t) : list string := (data c).*1.

(** [len(cache)], also cachetools' [currsize] *)
Definition len (c : t) : Z := Z.of_nat (length (data c)).

(** [key in cache] *)
Definition contains (key : string) : M t bool :=
  gets (fun c => match assoc key (data c) with Some _ => true | None => false end).

(** [LRUCache.__update]: move the key to the most recently used end *)
Definition update (key : string) : M t unit :=
  modify (fun c =>
    match assoc key (data c) with
    | Some v => with_data (remove_key key (data c) ++ [(key, v)]) c
    | None => c
    end).

(** [cache[key]]: [KeyError] when missing, else the value, and the key
    becomes the most recently used *)
Definition getitem (key : string) : M t (option string) :=
  d <- gets data ;;
  match assoc key d with
  | None => raise KeyError
  | Some v => update key ;; ret v
  end.

(** [popitem()]: remove the least recently used entry *)
Definition popitem : M t (string * option string) :=
  d <- gets data ;;
  match d with
  | [] => raise KeyError
  | kv :: d' => modify (with_data d') ;; ret kv
  end.

(** [while self.currsize + size > maxsize: self.popitem()], by recursion
    on the entries, each round dropping the first *)
Fixpoint make_room (size maxsize : Z) (d : list (string * option string))
    : outcome unit * list (string * option string) :=
  if Z.of_nat (length d) + size >? maxsize then
    match d with
    | [] => (Raise KeyError, [])
    | _ :: d' => make_room size maxsize d'
    end
  else (Return tt, d).

(** [self.__data[key] = value]: in place for a known key *)
Fixpoint store (key : string) (value : option string)
    (d : list (string * option string)) : list (string * option string) :=
  match d with
  | [] => [(key, value)]
  | (k, v) :: d' =>
      if decide (k = key) then (k, value) :: d' else (k, v) :: store key value d'
  end.

(** [cache[key] = value] *)
Definition setitem (key : string) (value : option string) : M t unit :=
  maxsize <- gets maxsize ;;
  let size := 1 in
  if size >? maxsize then raise (ValueError "value too large")
  else
    present <- contains key ;;
    (if negb present
     then fun c => let '(r, d) := make_room size maxsize (data c) in (r, with_data d c)
     else ret tt) ;;
    modify (fun c => with_data (store key value (data c)) c) ;;
    update key.

(** [cache.pop(key, None)] *)
Definition pop (key : string) : M t (option string) :=
  present <- contains key ;;
  if present then
    value <- getitem key ;;
    modify (fun c => with_data (remove_key key (data c)) c) ;;
    ret value
  else ret None.

(** [cache.clear()] *)
Definition clear : M t unit := modify (with_data []).

End LRUCache.

(** ** cache.py: class URLCache *)

Module URLCache.

Record t : Type := mk { cache : LRUCache.t; hits : Z; misses : Z }.

Definition with_cache (c : LRUCache.t) (self : t) : t :=
  mk c (hits self) (misses self).

Definition on_cache {A : Type} (m : M LRUCache.t A) : M t A :=
  zoom cache with_cache m.

(** [URLCache(max_size)] *)
Definition init (max_size : Z) : t := mk (LRUCache.init max_size) 0 0.

Definition get (key : string) : M t (option string) :=
  present <- on_cache (LRUCache.contains key) ;;
  if present then
    modify (fun self => mk (cache self) (hits self + 1) (misses self)) ;;
    on_cache (LRUCache.getitem key)
  else
    modify (fun self => mk (cache self) (hits self) (misses self + 1)) ;;
    ret None.

Definition set (key : string) (value : option string) : M t unit :=
  on_cache (LRUCache.setitem key value).

Definition invalidate (key : string) : M t unit :=
  on_cache (LRUCache.pop key) ;; ret tt.

Definition clear : M t unit :=
  on_cache LRUCache.clear ;;
  modify (fun self => mk (cache self) 0 0).

Definition size : M t Z := gets (fun self => LRUCache.len (cache self)).

End URLCache.


(** ** Python strings and numbers used by main.py

    A [str] is a sequence of Unicode code points. A [string] holds its
    UTF-8 encoding, one byte per [ascii], and [code_points] reads the
    code points back; [len] counts them. On ASCII, [str.isalnum] and
    [str.lower] are written out. Beyond ASCII they follow the Unicode
    character database of the interpreter, which is not part of the
    program: it is the parameter [Unicode]. *)

Definition byte_value (c : ascii) : Z := Z.of_N (N_of_ascii c).

(** [s.isascii()] *)
Definition isascii (s : string) : bool :=
  forallb (fun c => byte_value c <? 128) (list_ascii_of_string s).

(** UTF-8. A byte [10xxxxxx] continues the character begun by the last
    leading byte and carries six more of its bits; every other byte
    begins a character ([0xxxxxxx], [110xxxxx], [1110xxxx], [11110xxx]). *)
Definition continuation (b : Z) : bool := (128 <=? b) && (b <? 192).

Definition leading_bits (b : Z) : Z :=
  if b <? 128 then b
  else if b <? 224 then b - 192
  else if b <? 240 then b - 224
  else b - 240.

(** [utf8_decode cur bs]: the code points of the bytes [bs], after the
    bytes read so far of the character [cur]. *)
Fixpoint utf8_decode (cur : option Z) (bs : list Z) : list Z :=
  match bs with
  | [] => option_list cur
  | b :: bs' =>
      if continuation b
      then utf8_decode (Some (64 * default 0 cur + (b - 128))) bs'
      else option_list cur ++ utf8_decode (Some (leading_bits b)) bs'
  end.

(** The characters of a string *)
Definition code_points (s : string) : list Z :=
  utf8_decode None (byte_value <$> list_ascii_of_string s).

(** [len(s)]: the number of characters *)
Definition len (s : string) : Z := Z.of_nat (length (code_points s)).

Definition isdigit_ascii (c : Z) : bool := (48 <=? c) && (c <=? 57).

Definition isupper_ascii (c : Z) : bool := (65 <=? c) && (c <=? 90).

Definition islower_ascii (c : Z) : bool := (97 <=? c) && (c <=? 122).

(** [s.lower()] on an ASCII string: A to Z become a to z *)
Definition lower_char (c : ascii) : ascii :=
  if isupper_ascii (byte_value c) then ascii_of_N (N_of_ascii c + 32) else c.

Fixpoint ascii_lower (s : string) : string :=
  match s with
  | EmptyString => EmptyString
  | String c s' => String (lower_char c) (ascii_lower s')
  end.

(** The Unicode character database beyond ASCII:
    [isalnum_beyond_ascii c] is [chr(c).isalnum()] for a code point [c]
    of 128 or more (a letter or a number of any script), and
    [lower_beyond_ascii s] is [s.lower()] for a string [s] that is not
    pure ASCII. *)
Class Unicode := {
  isalnum_beyond_ascii : Z -> bool;
  lower_beyond_ascii : string -> string
}.

Section Str.

Context `{Unicode}.

(** [chr(c).isalnum()] *)
Definition isalnum_code_point (c : Z) : bool :=
  if c <? 128 then isdigit_ascii c || isupper_ascii c || islower_ascii c
  else isalnum_beyond_ascii c.

(** [s.isalnum()]: at least one character, and all of them alphanumeric *)
Definition isalnum (s : string) : bool :=
  match code_points s with
  | [] => false
  | cs => forallb isalnum_code_point cs
  end.

(** [s.lower()] *)
Definition lower (s : string) : string :=
  if isascii s then ascii_lower s else lower_beyond_ascii s.

End Str.

(** Truth value of a string, and of an [Optional[str]] *)
Definition truthy (s : string) : bool :=
  match s with EmptyString => false | _ => true end.

Definition truthy_opt (v : option string) : bool :=
  match v with Some s => truthy s | None => false end.

(** [int(x)] on a float: truncation toward zero *)
Definition int (x : Q) : Z := Z.quot (Qnum x) (Z.pos (Qden x)).

(** [x < y] on floats *)
Definition float_lt (x y : Q) : bool := negb (Qle_bool y x).

(** [string.ascii_letters + string.digits] *)
Definition ascii_letters_digits : string :=
  "abcdefghijklmnopqrstuvwxyzABCDEFGHIJKLMNOPQRSTUVWXYZ0123456789".

(** ** main.py: module state *)

Definition SHORT_CODE_LENGTH : nat := 6.

(** A row of table [urls]; the columns [id], [created_at] and
    [last_accessed_at] are left out. [short_code] is UNIQUE. *)
Module UrlRow.
Record t : Type := mk {
  short_code : string;
  original_url : string;
  click_count : Z;
  is_custom : bool;
  expires_at : option string
}.
End UrlRow.

(** A row of table [clicks] *)
Module ClickRow.
Record t : Type := mk {
  short_code : string;
  user_agent : option string;
  ip_address : option string;
  referrer : option string
}.
End ClickRow.

(** The statements sent to the database, in the order of their execution *)
Inductive sql : Type :=
  | select_urls_by_code (code : string)
  | select_urls_by_url (url : string)
  | insert_urls (code : string)
  | insert_clicks (code : string)
  | update_urls_click (code : string)
  | delete_clicks (code : string)
  | delete_urls (code : string).

Record App : Type := mkApp {
  cache : URLCache.t;
  urls : list UrlRow.t;
  clicks : list ClickRow.t;
  sql_log : list sql;
  rate_limit_tracker : gmap string (list Q);
  (** the future results of [random.random()], as indices, and how many
      of them have been consumed *)
  random_source : nat -> nat;
  random_pos : nat
}.

Definition with_cache (c : URLCache.t) (s : App) : App :=
  mkApp c (urls s) (clicks s) (sql_log s) (rate_limit_tracker s)
        (random_source s) (random_pos s).

Definition with_urls (u : list UrlRow.t) (s : App) : App :=
  mkApp (cache s) u (clicks s) (sql_log s) (rate_limit_tracker s)
        (random_source s) (random_pos s).

Definition with_clicks (c : list ClickRow.t) (s : App) : App :=
  mkApp (cache s) (urls s) c (sql_log s) (rate_limit_tracker s)
        (random_source s) (random_pos s).

Definition with_sql_log (l : list sql) (s : App) : App :=
  mkApp (cache s) (urls s) (clicks s) l (rate_limit_tracker s)
        (random_source s) (random_pos s).

Definition with_tracker (t : gmap string (list Q)) (s : App) : App :=
  mkApp (cache s) (urls s) (clicks s) (sql_log s) t
        (random_source s) (random_pos s).

Definition with_random_pos (p : nat) (s : App) : App :=
  mkApp (cache s) (urls s) (clicks s) (sql_log s) (rate_limit_tracker s)
        (random_source s) p.

Definition on_cache {A : Type} (m : M URLCache.t A) : M App A :=
  zoom cache with_cache m.

(** [cursor.execute(...)] *)
Definition execute (q : sql) : M App unit :=
  modify (fun s => with_sql_log (sql_log s ++ [q]) s).

Definition row_of_code (code : string) (rows : list UrlRow.t) : option UrlRow.t :=
  List.find (fun r => bool_decide (UrlRow.short_code r = code)) rows.

Definition row_of_url (url : string) (rows : list UrlRow.t) : option UrlRow.t :=
  List.find (fun r => bool_decide (UrlRow.original_url r = url)) rows.

(** [SELECT ... FROM urls WHERE short_code = ?] followed by [fetchone()] *)
Definition fetch_by_code (code : string) : M App (option UrlRow.t) :=
  execute (select_urls_by_code code) ;;
  gets (fun s => row_of_code code (urls s)).

(** [SELECT short_code FROM urls WHERE original_url = ?], [fetchone()] *)
Definition fetch_by_url (url : string) : M App (option UrlRow.t) :=
  execute (select_urls_by_url url) ;;
  gets (fun s => row_of_url url (urls s)).

(** [INSERT INTO urls ...]: [sqlite3.IntegrityError] on a duplicate code,
    which [shorten_url] turns into [HTTPException(500)] *)
Definition insert_url_or_500 (row : UrlRow.t) : M App unit :=
  execute (insert_urls (UrlRow.short_code row)) ;;
  rows <- gets urls ;;
  match row_of_code (UrlRow.short_code row) rows with
  | Some _ => raise (HTTPException 500)
  | None => modify (fun s => with_urls (urls s ++ [row]) s)
  end.

(** ** main.py: check_rate_limit *)

Record RetryInfo : Type := mkRetryInfo { retry_after : Z; limit : Z; window : Z }.

Section RateLimit.

Variables RATE_LIMIT_REQUESTS RATE_LIMIT_WINDOW : Z.

(** [now] is the reading of [current_time()] at the call. *)
Definition check_rate_limit (now : Q) (ip : string)
    : M App (bool * option RetryInfo) :=
  modify (fun s =>
    with_tracker
      (<[ip := List.filter
                 (fun req_time => float_lt (now - req_time) (inject_Z RATE_LIMIT_WINDOW))
                 (rate_limit_tracker s !!! ip)]> (rate_limit_tracker s)) s) ;;
  reqs <- gets (fun s => rate_limit_tracker s !!! ip) ;;
  if Z.of_nat (length reqs) >=? RATE_LIMIT_REQUESTS then
    match reqs with
    | [] => raise IndexError
    | oldest_request :: _ =>
        let retry_after :=
          int (inject_Z RATE_LIMIT_WINDOW - (now - oldest_request)) + 1 in
        ret (false, Some (mkRetryInfo retry_after RATE_LIMIT_REQUESTS RATE_LIMIT_WINDOW))
    end
  else
    modify (fun s =>
      with_tracker (<[ip := reqs ++ [now]]> (rate_limit_tracker s)) s) ;;
    ret (true, None).

End RateLimit.

(** ** main.py: URLRequest.validate_custom_code *)

Definition reserved : gset string :=
  {[ "api"; "health"; "shorten"; "info"; "analytics"; "cache"; "qrcode" ]}.

Definition validate_custom_code `{Unicode} (v : option string)
    : outcome (option string) :=
  if truthy_opt v then
    match v with
    | Some s =>
        if (len s <? 3) || (len s >? 20) then
          Raise (ValueError "Custom code must be 3-20 characters long")
        else if negb (isalnum s) then
          Raise (ValueError "Custom code must be alphanumeric")
        else if bool_decide (lower s ∈ reserved) then
          Raise (ValueError ("Custom code '" +:+ s +:+ "' is reserved"))
        else Return v
    | None => Return v
    end
  else Return v.

(** ** main.py: code generation *)

(** One result of the random generator, as an index into a population of
    [n] elements ([floor(random() * n)]). *)
Definition random_index (n : nat) : M App nat :=
  i <- gets (fun s => random_source s (random_pos s)) ;;
  modify (fun s => with_random_pos (S (random_pos s)) s) ;;
  ret (i mod n)%nat.

(** [random.choices(population, k=k)] *)
Fixpoint random_choices (population : list ascii) (k : nat) : M App (list ascii) :=
  match k with
  | O => ret []
  | S k' =>
      i <- random_index (length population) ;;
      rest <- random_choices population k' ;;
      ret (nth i population Ascii.zero :: rest)
  end.

(** [code_exists(code)] *)
Definition code_exists (code : string) : M App bool :=
  result <- fetch_by_code code ;;
  ret (match result with Some _ => true | None => false end).

(** [generate_short_code()]; [fuel] bounds the rounds of [while True]. *)
Fixpoint generate_short_code (fuel : nat) : M App string :=
  let characters := ascii_letters_digits in
  match fuel with
  | O => fun s => (Diverge, s)
  | S fuel' =>
      chars <- random_choices (list_ascii_of_string characters) SHORT_CODE_LENGTH ;;
      let code := string_of_list_ascii chars in
      taken <- code_exists code ;;
      if negb taken then ret code else generate_short_code fuel'
  end.

(** ** main.py: lookups *)

Definition NOT_FOUND : string := "__NOT_FOUND__".

(** [get_original_url(code)] *)
Definition get_original_url (code : string) : M App (option string) :=
  cached_url <- on_cache (URLCache.get code) ;;
  match cached_url with
  | Some cached =>
      ret (if bool_decide (cached <> NOT_FOUND) then Some cached else None)
  | None =>
      result <- fetch_by_code code ;;
      match result with
      | Some row =>
          let url := UrlRow.original_url row in
          on_cache (URLCache.set code (Some url)) ;;
          ret (Some url)
      | None =>
          on_cache (URLCache.set code (Some NOT_FOUND)) ;;
          ret None
      end
  end.

(** [get_existing_code(url)] *)
Definition get_existing_code (url : string) : M App (option string) :=
  result <- fetch_by_url url ;;
  ret (match result with Some row => Some (UrlRow.short_code row) | None => None end).

(** [record_click(short_code, user_agent, ip_address, referrer)] *)
Definition record_click (short_code : string)
    (user_agent ip_address referrer : option string) : M App unit :=
  execute (insert_clicks short_code) ;;
  modify (fun s =>
    with_clicks (clicks s ++ [ClickRow.mk short_code user_agent ip_address referrer]) s) ;;
  execute (update_urls_click short_code) ;;
  modify (fun s =>
    with_urls
      (map (fun r =>
              if bool_decide (UrlRow.short_code r = short_code)
              then UrlRow.mk (UrlRow.short_code r) (UrlRow.original_url r)
                     (UrlRow.click_count r + 1) (UrlRow.is_custom r)
                     (UrlRow.expires_at r)
              else r)
           (urls s)) s).

(** ** main.py: request handlers *)

Module URLRequest.
Record t : Type := mk {
  url : string;
  custom_code : option string;
  expires_at : option string
}.
End URLRequest.

Record URLResponse : Type := mkURLResponse { short_code : string; short_url : string }.

Record URLInfo : Type := mkURLInfo {
  info_short_code : string;
  info_original_url : string;
  info_short_url : string
}.

(** The part of a [fastapi.Request] that [redirect_url] reads *)
Record Request : Type := mkRequest {
  header_user_agent : option string;
  client_host : option string;
  header_referer : option string
}.

Record RedirectResponse : Type := mkRedirect { location : string; status_code : Z }.

Section Handlers.

Variable BASE_URL : string.

(** [datetime.now() >= datetime.fromisoformat(expires_at)] at the time
    of the request; [fromisoformat] raises on a malformed string. *)
Variable expired_now : string -> outcome bool.

(** [is_expired(expires_at)] *)
Definition is_expired (expires_at : option string) : M App bool :=
  if negb (truthy_opt expires_at) then ret false
  else
    match expires_at with
    | Some e => fun s => (expired_now e, s)
    | None => ret false
    end.

(** [shorten_url(request)], POST /shorten *)
Definition shorten_url (fuel : nat) (request : URLRequest.t) : M App URLResponse :=
  let original_url := URLRequest.url request in
  existing_code <- get_existing_code original_url ;;
  if truthy_opt existing_code then
    let existing := default "" existing_code in
    ret (mkURLResponse existing (BASE_URL +:+ "/" +:+ existing))
  else
    code_custom <-
      (if truthy_opt (URLRequest.custom_code request) then
         let short_code := default "" (URLRequest.custom_code request) in
         taken <- code_exists short_code ;;
         if taken then raise (HTTPException 409) else ret (short_code, true)
       else
         short_code <- generate_short_code fuel ;;
         ret (short_code, false)) ;;
    let '(short_code, is_custom) := code_custom in
    insert_url_or_500
      (UrlRow.mk short_code original_url 0 is_custom (URLRequest.expires_at request)) ;;
    on_cache (URLCache.invalidate short_code) ;;
    ret (mkURLResponse short_code (BASE_URL +:+ "/" +:+ short_code)).

(** [redirect_url(short_code, request)], GET /{short_code} *)
Definition redirect_url (short_code : string) (request : Request)
    : M App RedirectResponse :=
  result <- fetch_by_code short_code ;;
  match result with
  | None => raise (HTTPException 404)
  | Some row =>
      let original_url := UrlRow.original_url row in
      expired <- is_expired (UrlRow.expires_at row) ;;
      if expired then raise (HTTPException 410)
      else
        try_except
          (record_click short_code (header_user_agent request)
             (client_host request) (header_referer request))
          (fun _ => ret tt) ;;
        ret (mkRedirect original_url 307)
  end.

(** [get_url_info(short_code)], GET /info/{short_code} *)
Definition get_url_info (short_code : string) : M App URLInfo :=
  original_url <- get_original_url short_code ;;
  if negb (truthy_opt original_url) then raise (HTTPException 404)
  else
    ret (mkURLInfo short_code (default "" original_url)
           (BASE_URL +:+ "/" +:+ short_code)).

(** [delete_url(short_code)], DELETE /{short_code} *)
Definition delete_url (short_code : string) : M App string :=
  url_record <- fetch_by_code short_code ;;
  match url_record with
  | None => raise (HTTPException 404)
  | Some _ =>
      try_except
        (execute (delete_clicks short_code) ;;
         modify (fun s =>
           with_clicks
             (List.filter
                (fun c => negb (bool_decide (ClickRow.short_code c = short_code)))
                (clicks s)) s) ;;
         execute (delete_urls short_code) ;;
         modify (fun s =>
           with_urls
             (List.filter
                (fun r => negb (bool_decide (UrlRow.short_code r = short_code)))
                (urls s)) s) ;;
         on_cache (URLCache.invalidate short_code) ;;
         ret ("Successfully deleted short code '" +:+ short_code +:+ "'"))
        (fun _ => raise (HTTPException 500))
  end.

End Handlers.

(** ** cache.py: URLCache.stats; main.py: cache_clear, save_url *)

Record CacheStats : Type := mkCacheStats {
  stat_size : Z;
  stat_max_size : Z;
  stat_hits : Z;
  stat_misses : Z;
  stat_hit_rate : Q;
  stat_timestamp : string
}.

(** [URLCache.stats()]; [timestamp] is [datetime.now().isoformat()] at the
    call, and the true division of the two counters is exact. *)
Definition stats (timestamp : string) : M URLCache.t CacheStats :=
  self <- gets (fun self => self) ;;
  let total := URLCache.hits self + URLCache.misses self in
  let hit_rate :=
    if total >? 0 then (inject_Z (URLCache.hits self) / inject_Z total)%Q else 0%Q in
  ret (mkCacheStats (LRUCache.len (URLCache.cache self))
         (LRUCache.maxsize (URLCache.cache self))
         (URLCache.hits self) (URLCache.misses self) hit_rate timestamp).

(** [cache_clear()], POST /api/cache-clear *)
Definition cache_clear (timestamp : string) : M App (string * string) :=
  on_cache URLCache.clear ;;
  ret ("Cache cleared", timestamp).

(** [save_url(short_code, original_url)]: the columns not named by the
    INSERT take their defaults. *)
Definition save_url (short_code original_url : string) : M App unit :=
  execute (insert_urls short_code) ;;
  rows <- gets urls ;;
  match row_of_code short_code rows with
  | Some _ => raise (HTTPException 500)
  | None =>
      modify (fun s =>
        with_urls (urls s ++ [UrlRow.mk short_code original_url 0 false None]) s)
  end.

(** ** main.py: rate_limit_middleware *)

(** What the middleware answers: the response of the handler, the JSON
    response with status 429, or the [TypeError] that subscripting a
    [limit_info] of [None] would raise. *)
Inductive middleware_response (A : Type) : Type :=
  | Passed (response : A)
  | TooManyRequests (retry_after : Z)
  | NoneNotSubscriptable.
Arguments Passed {A} response.
Arguments TooManyRequests {A} retry_after.
Arguments NoneNotSubscriptable {A}.

Record RateLimitStats : Type := mkRateLimitStats {
  rate_limit_requests : Z;
  rate_limit_window_seconds : Z;
  active_ips : Z;
  stats_timestamp : string
}.

Section Middleware.

Variables RATE_LIMIT_REQUESTS RATE_LIMIT_WINDOW : Z.

(** [rate_limit_middleware(request, call_next)]; [client_host] is
    [request.client.host] when there is a client, [path] is
    [request.url.path], and [now] is the clock reading of the check. *)
Definition rate_limit_middleware {A : Type} (now : Q)
    (client_host : option string) (path : string) (call_next : M App A)
    : M App (middleware_response A) :=
  let client_ip := default "unknown" client_host in
  if bool_decide (path = "/health") then
    response <- call_next ;; ret (Passed response)
  else
    checked <- check_rate_limit RATE_LIMIT_REQUESTS RATE_LIMIT_WINDOW now client_ip ;;
    let '(allowed, limit_info) := checked in
    if negb allowed then
      match limit_info with
      | Some info => ret (TooManyRequests (retry_after info))
      | None => ret NoneNotSubscriptable
      end
    else
      response <- call_next ;; ret (Passed response).

(** [get_rate_limit_stats()], GET /api/rate-limit-stats *)
Definition get_rate_limit_stats (timestamp : string) : M App RateLimitStats :=
  tracker <- gets rate_limit_tracker ;;
  ret (mkRateLimitStats RATE_LIMIT_REQUESTS RATE_LIMIT_WINDOW
         (Z.of_nat (size tracker)) timestamp).

End Middleware.

(** ** Sequences of cache operations *)

Inductive cache_op : Type :=
  | Get (key : string)
  | Set_ (key : string) (value : option string).

Definition op_key (o : cache_op) : string :=
  match o with Get k => k | Set_ k _ => k end.

Definition cache_step (o : cache_op) : M URLCache.t unit :=
  match o with
  | Get k => URLCache.get k ;; ret tt
  | Set_ k v => URLCache.set k v
  end.

(** The cache after the operations, run in order; an operation that
    raises leaves the cache as it was at the raise. *)
Fixpoint cache_run (ops : list cache_op) (self : URLCache.t) : URLCache.t :=
  match ops with
  | [] => self
  | o :: ops' => cache_run ops' (snd (cache_step o self))
  end.

(** The position (from 1) of the last operation on [key], 0 if none. *)
Fixpoint last_use_from (i : nat) (ops : list cache_op) (key : string) : nat :=
  match ops with
  | [] => 0
  | o :: ops' =>
      match last_use_from (S i) ops' key with
      | O => if decide (op_key o = key) then i else 0
      | S n => S n
      end
  end%nat.

Definition last_use (ops : list cache_op) (key : string) : nat :=
  last_use_from 1 ops key.

(** [k1] was last read or written before [k2]. *)
Definition used_before (ops : list cache_op) (k1 k2 : string) : Prop :=
  (last_use ops k1 < last_use ops k2)%nat.

(** One [set] per pair, in order. *)
Definition sets (kvs : list (string * option string)) : list cache_op :=
  map (fun kv => Set_ (fst kv) (snd kv)) kvs.

(** The entries and the keys of a [URLCache], least recently used first. *)
Definition entries (self : URLCache.t) : list (string * option string) :=
  LRUCache.data (URLCache.cache self).

Definition lru_keys (self : URLCache.t) : list string :=
  LRUCache.keys (URLCache.cache self).

(** The entries replaced, the counters kept. *)
Definition with_entries (d : list (string * option string)) (self : URLCache.t)
    : URLCache.t :=
  URLCache.with_cache (LRUCache.with_data d (URLCache.cache self)) self.

(** The entry list after a successful [cache[key] = value] or a hit. *)
Definition touch (key : string) (value : option string)
    (d : list (string * option string)) : list (string * option string) :=
  LRUCache.remove_key key d ++ [(key, value)].

(** How many entries [cache[key] = value] evicts for a new key. *)
Definition evicted (m : Z) (d : list (string * option string)) : nat :=
  Z.to_nat (Z.of_nat (length d) + 1 - m).

(** What holds of a cache of capacity [N] after the operations [ops]. *)
Definition lru_inv (N : Z) (ops : list cache_op) (self : URLCache.t) : Prop :=
  LRUCache.maxsize (URLCache.cache self) = N /\
  Z.of_nat (length (entries self)) <= Z.max 0 N /\
  NoDup (lru_keys self) /\
  StronglySorted (used_before ops) (lru_keys self).

(** ** Lookups in a row *)

(** The cache entry of [code], if any. *)
Definition cached (code : string) (s : App) : option (option string) :=
  LRUCache.assoc code (entries (cache s)).

Definition capacity (s : App) : Z := LRUCache.maxsize (URLCache.cache (cache s)).

(** The state after [n] calls of [get_original_url(code)] in a row. *)
Fixpoint after_lookups (n : nat) (code : string) (s : App) : App :=
  match n with
  | O => s
  | S n' => after_lookups n' code (snd (get_original_url code s))
  end.

(** ** Rounds of the generator loop *)

Definition alphabet : list ascii := list_ascii_of_string ascii_letters_digits.

(** The [k] characters that [random.choices] picks when the generator
    stands at position [p]. *)
Definition drawn (source : nat -> nat) (population : list ascii) (p k : nat)
    : list ascii :=
  map (fun i => nth (source (p + i)%nat mod length population)%nat population Ascii.zero)
      (seq 0 k).

(** The code that round [j] (from 0) of [generate_short_code] draws when
    the loop starts in state [s]. *)
Definition candidate (s : App) (j : nat) : string :=
  string_of_list_ascii
    (drawn (random_source s) alphabet
       (random_pos s + SHORT_CODE_LENGTH * j) SHORT_CODE_LENGTH).

(** [code_exists(code)] as a function of the table *)
Definition taken (code : string) (s : App) : bool :=
  match row_of_code code (urls s) with Some _ => true | None => false end.

(** The state after [n] rounds of the loop: [n] draws of six characters
    and [n] SELECTs, nothing else. *)
Definition after_rounds (n : nat) (s : App) : App :=
  with_sql_log
    (sql_log s ++ map (fun j => select_urls_by_code (candidate s j)) (seq 0 n))
    (with_random_pos (random_pos s + SHORT_CODE_LENGTH * n) s).

(** Round [n] is the first whose draw is not in the table. *)
Definition first_free (s : App) (n : nat) : Prop :=
  (forall j, (j < n)%nat -> taken (candidate s j) s = true) /\
  taken (candidate s n) s = false.

(** ** Checks of one client *)

(** The timestamps recorded for a client, oldest first. *)
Definition timestamps (ip : string) (s : App) : list Q := rate_limit_tracker s !!! ip.

(** The timestamps that a check at [now] keeps. *)
Definition kept (WINDOW : Z) (now : Q) (reqs : list Q) : list Q :=
  List.filter (fun req_time => float_lt (now - req_time) (inject_Z WINDOW)) reqs.

(** The outcomes of successive checks for one client at the given clock
    readings, and the state after them. *)
Fixpoint checks (LIMIT WINDOW : Z) (ip : string) (times : list Q) (s : App)
    : list (outcome (bool * option RetryInfo)) * App :=
  match times with
  | [] => ([], s)
  | now :: times' =>
      let '(r, s') := check_rate_limit LIMIT WINDOW now ip s in
      let '(rs, s'') := checks LIMIT WINDOW ip times' s' in
      (r :: rs, s'')
  end.

(** The rule of the design document, in its words: a timestamp is
    dropped when it is older than [now - windowSeconds], a rejection
    reports [windowSeconds - (now - oldest) + 1], and a request is
    admitted when fewer than [limit] timestamps remain. *)
Definition older_than_window (WINDOW : Z) (now req_time : Q) : bool :=
  float_lt req_time (now - inject_Z WINDOW).

Definition retry_after_as_specified (WINDOW : Z) (now oldest : Q) : Q :=
  inject_Z WINDOW - (now - oldest) + 1.

Definition admitted_as_specified (LIMIT WINDOW : Z) (now : Q) (reqs : list Q) : bool :=
  Z.of_nat
    (length (List.filter (fun t => negb (older_than_window WINDOW now t)) reqs))
  <? LIMIT.

(** ** Admitted requests of one client *)

(** The clock readings, among [times], at which the check of [ip] was
    admitted, and the state after all the checks. *)
Fixpoint admitted_times (LIMIT WINDOW : Z) (ip : string) (times : list Q) (s : App)
    : list Q * App :=
  match times with
  | [] => ([], s)
  | now :: times' =>
      let '(r, s') := check_rate_limit LIMIT WINDOW now ip s in
      let '(admitted, s'') := admitted_times LIMIT WINDOW ip times' s' in
      (match r with
       | Return (true, _) => now :: admitted
       | _ => admitted
       end, s'')
  end.

(** The answer of the middleware when it lets the request through: the
    outcome of the handler, a returned response marked as passed. *)
Definition passed {A : Type} (r : outcome A * App)
    : outcome (middleware_response A) * App :=
  match r with
  | (Return response, s) => (Return (Passed response), s)
  | (Raise e, s) => (Raise e, s)
  | (Diverge, s) => (Diverge, s)
  end.

(** ** The cache against the table *)

(** What the cache may hold for a code: the stored URL, or the marker
    when the table has no row for it. *)
Definition expected_entry (code : string) (s : App) : option string :=
  Some (default NOT_FOUND (UrlRow.original_url <$> row_of_code code (urls s))).

(** Every cache entry is the one expected from the table. *)
Definition coherent (s : App) : Prop :=
  forall code v, (code, v) ∈ entries (cache s) -> v = expected_entry code s.

(** No stored URL is the text of the marker. *)
Definition no_marker_url (s : App) : Prop :=
  forall row, row ∈ urls s -> UrlRow.original_url row <> NOT_FOUND.

(** The table after [UPDATE urls SET click_count = click_count + 1 WHERE
    short_code = ?]. *)
Definition count_click (code : string) (rows : list UrlRow.t) : list UrlRow.t :=
  map (fun r =>
         if bool_decide (UrlRow.short_code r = code)
         then UrlRow.mk (UrlRow.short_code r) (UrlRow.original_url r)
                (UrlRow.click_count r + 1) (UrlRow.is_custom r) (UrlRow.expires_at r)
         else r) rows.

(** The short codes of the table, in row order. *)
Definition stored_codes (s : App) : list string := UrlRow.short_code <$> urls s.

Definition is_get (o : cache_op) : bool :=
  match o with Get _ => true | Set_ _ _ => false end.

(** A request to one of the handlers that read or write the mappings. *)
Inductive api_call : Type :=
  | CallShorten (fuel : nat) (request : URLRequest.t)
  | CallRedirect (code : string) (request : Request)
  | CallInfo (code : string)
  | CallDelete (code : string)
  | CallCacheClear (timestamp : string).

(** The state after the handler has answered or raised. *)
Definition handle (BASE_URL : string) (expired_now : string -> outcome bool)
    (c : api_call) (s : App) : App :=
  match c with
  | CallShorten fuel request => snd (shorten_url BASE_URL fuel request s)
  | CallRedirect code request => snd (redirect_url expired_now code request s)
  | CallInfo code => snd (get_url_info BASE_URL code s)
  | CallDelete code => snd (delete_url code s)
  | CallCacheClear timestamp => snd (cache_clear timestamp s)
  end.

Fixpoint handle_all (BASE_URL : string) (expired_now : string -> outcome bool)
    (calls : list api_call) (s : App) : App :=
  match calls with
  | [] => s
  | c :: calls' => handle_all BASE_URL expired_now calls' (handle BASE_URL expired_now c s)
  end.

(** ** Example states *)

(** A small application state: a cache of capacity 2, one stored URL
    under the custom code promo1, and a random generator that always
    yields index 0. *)
Definition example_app : App :=
  mkApp (URLCache.init 2)
        [UrlRow.mk "promo1" "https://example.com/sale" 0 true None]
        [] [] ∅ (fun _ => O) O.

(** The same with a row whose URL is the text of the marker. *)
Definition example_app_marker_url : App :=
  with_urls [UrlRow.mk "weird1" NOT_FOUND 0 true None] example_app.

(** The example state after a lookup of the absent code ghost, which
    leaves the marker cached for it. *)
Definition example_app_ghost_cached : App :=
  snd (get_original_url "ghost" example_app).

(** The example state with promo1 also held by the cache. *)
Definition example_app_promo_cached : App :=
  snd (get_original_url "promo1" example_app).

(** A request to store a URL under the custom code ghost. *)
Definition ghost_request : URLRequest.t :=
  URLRequest.mk "https://example.com/ghost" (Some "ghost") None.

(** A table that holds the code aaaaaa, with a random generator whose
    first 6 * 10001 results are index 0 and all later ones index 1. *)
Definition colliding_app : App :=
  mkApp (URLCache.init 2)
        [UrlRow.mk "aaaaaa" "https://example.com/a" 0 false None]
        [] [] ∅ (fun i => if Z.of_nat i <? 60006 then O else 1%nat) O.

(** The same table with a generator that yields index 0 for ever. *)
Definition always_colliding_app : App :=
  mkApp (URLCache.init 2)
        [UrlRow.mk "aaaaaa" "https://example.com/a" 0 false None]
        [] [] ∅ (fun _ => O) O.

(** One client with a single recorded request at time 0. *)
Definition one_request_app : App :=
  with_tracker {[ "10.0.0.1" := [0%Q] ]} example_app.

(** A short run of requests: store a URL under ghost, read it twice,
    follow it, delete it and read it again. *)
Definition example_calls : list api_call :=
  [CallInfo "ghost"; CallShorten 0 ghost_request; CallInfo "ghost";
   CallRedirect "ghost" (mkRequest (Some "curl") (Some "10.0.0.1") None);
   CallDelete "ghost"; CallInfo "ghost"; CallCacheClear "now"].

(** Requests that leave the code ghost alone: read and follow it, delete
    promo1, store another URL under other, clear the cache. *)
Definition later_calls : list api_call :=
  [CallInfo "ghost";
   CallRedirect "ghost" (mkRequest (Some "curl") (Some "10.0.0.1") None);
   CallDelete "promo1";
   CallShorten 0 (URLRequest.mk "https://example.com/other" (Some "other") None);
   CallCacheClear "now"].

(** A clock for which no link has expired. *)
Definition never_expired (expires_at : string) : outcome bool := Return false.

(** * Properties *)

Example lru_demo :
  let run := (URLCache.set "a" (Some "1") ;; URLCache.set "b" (Some "2") ;;
              URLCache.get "a" ;; URLCache.set "c" (Some "3")) in
  LRUCache.keys (URLCache.cache (snd (run (URLCache.init 2)))) = ["a"; "c"].
Proof. reflexivity. Qed.

Ltac unfold_m :=
  unfold bind, ret, raise, gets, modify, zoom, try_except in *.

Section LRUFacts.

Import LRUCache.
Implicit Types (d : list (string * option string)) (key k : string).
Implicit Types (v : option string) (c : LRUCache.t).

Lemma assoc_app key d1 d2 :
  assoc key (d1 ++ d2) =
  match assoc key d1 with Some v => Some v | None => assoc key d2 end.
Proof.
  induction d1 as [|[k v] d1 IH]; simpl; [done|].
  destruct (decide (k = key)); auto.
Qed.

Lemma assoc_remove_key_eq key d : assoc key (remove_key key d) = None.
Proof.
  induction d as [|[k v] d IH]; simpl; [done|].
  case_bool_decide; simpl; [done|].
  destruct (decide (k = key)); [done|]. apply IH.
Qed.

Lemma assoc_remove_key_ne key k d :
  k <> key -> assoc k (remove_key key d) = assoc k d.
Proof.
  intros Hne. induction d as [|[k' v] d IH]; simpl; [done|].
  case_bool_decide; simpl in *.
  - subst. destruct (decide (key = k)); [congruence|]. apply IH.
  - destruct (decide (k' = k)); [done|]. apply IH.
Qed.

Lemma assoc_None key d : assoc key d = None <-> key ∉ d.*1.
Proof.
  induction d as [|[k v] d IH]; simpl.
  - split; [intros _; apply not_elem_of_nil | done].
  - rewrite not_elem_of_cons. destruct (decide (k = key)); subst.
    + split; [done | intros [? _]; done].
    + rewrite IH. split; [intros ?; split; [congruence | done] | intros [_ ?]; done].
Qed.

Lemma assoc_Some_elem key v d : assoc key d = Some v -> key ∈ d.*1.
Proof.
  intros H. destruct (decide (key ∈ d.*1)) as [|Hn]; [done|].
  apply assoc_None in Hn. congruence.
Qed.

Lemma remove_key_absent key d : assoc key d = None -> remove_key key d = d.
Proof.
  induction d as [|[k v] d IH]; simpl; [done|].
  destruct (decide (k = key)); [done|]. intros H.
  rewrite bool_decide_eq_false_2 by done. simpl. by rewrite IH.
Qed.

Lemma remove_key_app key d1 d2 :
  remove_key key (d1 ++ d2) = remove_key key d1 ++ remove_key key d2.
Proof. unfold remove_key. apply List.filter_app. Qed.

Lemma remove_key_idem key d : remove_key key (remove_key key d) = remove_key key d.
Proof. apply remove_key_absent, assoc_remove_key_eq. Qed.

Lemma remove_key_sublist key d : remove_key key d `sublist_of` d.
Proof.
  unfold remove_key. induction d as [|kv d IH]; simpl; [done|].
  destruct (negb _); [by apply sublist_skip | by apply sublist_cons].
Qed.

Lemma remove_key_length key d : (length (remove_key key d) <= length d)%nat.
Proof. unfold remove_key. apply List.filter_length_le. Qed.

Lemma remove_key_present_length key v d :
  assoc key d = Some v -> (length (remove_key key d) < length d)%nat.
Proof.
  induction d as [|[k v'] d IH]; simpl; [done|].
  destruct (decide (k = key)); subst.
  - intros _. rewrite bool_decide_eq_true_2 by done. simpl.
    pose proof (remove_key_length key d). lia.
  - intros H. rewrite bool_decide_eq_false_2 by done. simpl.
    specialize (IH H). lia.
Qed.

Lemma store_absent key v d : assoc key d = None -> store key v d = d ++ [(key, v)].
Proof.
  induction d as [|[k v'] d IH]; simpl; [done|].
  destruct (decide (k = key)); [done|]. intros H. by rewrite IH.
Qed.

Lemma assoc_store key v d : assoc key (store key v d) = Some v.
Proof.
  induction d as [|[k v'] d IH]; simpl.
  - by rewrite decide_True.
  - destruct (decide (k = key)); simpl.
    + by rewrite decide_True.
    + by rewrite decide_False.
Qed.

Lemma remove_key_store key v d : remove_key key (store key v d) = remove_key key d.
Proof.
  induction d as [|[k v'] d IH]; simpl.
  - by rewrite bool_decide_eq_true_2.
  - destruct (decide (k = key)); simpl.
    + by rewrite !bool_decide_eq_true_2.
    + rewrite !bool_decide_eq_false_2 by done. simpl. by rewrite IH.
Qed.

Lemma assoc_drop_None key n d : assoc key d = None -> assoc key (drop n d) = None.
Proof.
  rewrite !assoc_None. intros H Hin. apply H.
  rewrite <- (take_drop n d), fmap_app. apply elem_of_app. by right.
Qed.

(** The eviction loop never fails for a capacity of at least one, and
    leaves the most recent entries that fit beside the new one. *)
Lemma make_room_drop m d :
  1 <= m ->
  make_room 1 m d = (Return tt, drop (Z.to_nat (Z.of_nat (length d) + 1 - m)) d).
Proof.
  intros Hm. induction d as [|kv d IH].
  - cbn [make_room]. destruct (_ >? _) eqn:E.
    + apply Z.gtb_lt in E. simpl in E. lia.
    + by rewrite drop_nil.
  - cbn [make_room]. destruct (_ >? _) eqn:E.
    + apply Z.gtb_lt in E. rewrite IH. f_equal. simpl length in *.
      replace (Z.to_nat (Z.of_nat (S (length d)) + 1 - m))
        with (S (Z.to_nat (Z.of_nat (length d) + 1 - m))) by lia.
      done.
    + assert (Z.of_nat (length (kv :: d)) + 1 <= m) as Hle.
      { destruct (Z.gtb_spec (Z.of_nat (length (kv :: d)) + 1) m); [done | lia]. }
      replace (Z.to_nat (Z.of_nat (length (kv :: d)) + 1 - m)) with 0%nat by lia.
      done.
Qed.

Lemma getitem_hit key v c :
  assoc key (data c) = Some v ->
  getitem key c = (Return v, with_data (touch key v (data c)) c).
Proof.
  intros H. unfold getitem, update. unfold_m. rewrite H. simpl. by rewrite H.
Qed.

Lemma setitem_too_large key v c :
  maxsize c < 1 -> setitem key v c = (Raise (ValueError "value too large"), c).
Proof.
  intros H. unfold setitem. unfold_m.
  destruct (Z.gtb_spec 1 (maxsize c)); [done | lia].
Qed.

Lemma setitem_present key v v0 c :
  1 <= maxsize c -> assoc key (data c) = Some v0 ->
  setitem key v c = (Return tt, with_data (touch key v (data c)) c).
Proof.
  intros Hm H. unfold setitem, contains, update. unfold_m.
  destruct (Z.gtb_spec 1 (maxsize c)); [lia|].
  rewrite H. simpl. rewrite assoc_store, remove_key_store. done.
Qed.

Lemma setitem_absent key v c :
  1 <= maxsize c -> assoc key (data c) = None ->
  setitem key v c =
  (Return tt, with_data (drop (evicted (maxsize c) (data c)) (data c) ++ [(key, v)]) c).
Proof.
  intros Hm H. unfold setitem, contains, update. unfold_m.
  destruct (Z.gtb_spec 1 (maxsize c)); [lia|].
  rewrite H. simpl. rewrite make_room_drop by done. simpl.
  fold (evicted (maxsize c) (data c)).
  pose proof (assoc_drop_None key (evicted (maxsize c) (data c)) _ H) as Hd.
  rewrite assoc_store, remove_key_store, (remove_key_absent _ _ Hd). done.
Qed.

Lemma pop_remove key c :
  exists r, pop key c = (Return r, with_data (remove_key key (data c)) c).
Proof.
  unfold pop, contains. unfold_m.
  destruct (assoc key (data c)) as [v|] eqn:H.
  - rewrite (getitem_hit _ _ _ H). simpl. exists v. unfold touch.
    rewrite remove_key_app, remove_key_idem. simpl.
    rewrite bool_decide_eq_true_2 by done. simpl. by rewrite app_nil_r.
  - exists None. rewrite (remove_key_absent _ _ H). by destruct c.
Qed.

End LRUFacts.

Section URLCacheFacts.

Import LRUCache.
Implicit Types (d : list (string * option string)) (key k : string).
Implicit Types (v : option string) (self : URLCache.t).

Lemma get_hit key v self :
  assoc key (entries self) = Some v ->
  URLCache.get key self =
  (Return v,
   URLCache.mk (with_data (touch key v (entries self)) (URLCache.cache self))
     (URLCache.hits self + 1) (URLCache.misses self)).
Proof.
  unfold entries. intros H. unfold URLCache.get, URLCache.on_cache, contains.
  unfold_m. rewrite H. simpl. by rewrite (getitem_hit _ _ _ H).
Qed.

Lemma get_miss key self :
  assoc key (entries self) = None ->
  URLCache.get key self =
  (Return None,
   URLCache.mk (URLCache.cache self) (URLCache.hits self) (URLCache.misses self + 1)).
Proof.
  unfold entries. intros H. unfold URLCache.get, URLCache.on_cache, contains.
  unfold_m. by rewrite H.
Qed.

Lemma set_too_large key v self :
  maxsize (URLCache.cache self) < 1 ->
  URLCache.set key v self = (Raise (ValueError "value too large"), self).
Proof.
  intros H. unfold URLCache.set, URLCache.on_cache. unfold_m.
  rewrite setitem_too_large by done. by destruct self.
Qed.

Lemma set_present key v v0 self :
  1 <= maxsize (URLCache.cache self) -> assoc key (entries self) = Some v0 ->
  URLCache.set key v self = (Return tt, with_entries (touch key v (entries self)) self).
Proof.
  intros Hm H. unfold URLCache.set, URLCache.on_cache. unfold_m.
  by rewrite (setitem_present _ _ _ _ Hm H).
Qed.

Lemma set_absent key v self :
  1 <= maxsize (URLCache.cache self) -> assoc key (entries self) = None ->
  URLCache.set key v self =
  (Return tt,
   with_entries
     (drop (evicted (maxsize (URLCache.cache self)) (entries self)) (entries self)
      ++ [(key, v)]) self).
Proof.
  intros Hm H. unfold URLCache.set, URLCache.on_cache. unfold_m.
  by rewrite (setitem_absent _ _ _ Hm H).
Qed.

Lemma invalidate_remove key self :
  URLCache.invalidate key self =
  (Return tt, with_entries (remove_key key (entries self)) self).
Proof.
  unfold URLCache.invalidate, URLCache.on_cache. unfold_m.
  destruct (pop_remove key (URLCache.cache self)) as [r ->]. done.
Qed.

(** After a successful [set] the key is the most recently used entry
    and reads back the value. *)
Lemma set_lookup key v self :
  1 <= maxsize (URLCache.cache self) ->
  exists d0,
    URLCache.set key v self = (Return tt, with_entries (d0 ++ [(key, v)]) self) /\
    assoc key d0 = None /\ d0.*1 `sublist_of` (entries self).*1 /\
    Z.of_nat (length d0) + 1 <=
      Z.max (maxsize (URLCache.cache self)) (Z.of_nat (length (entries self))).
Proof.
  intros Hm. destruct (assoc key (entries self)) as [v0|] eqn:H.
  - exists (remove_key key (entries self)). split; [|split; [|split]].
    + by rewrite (set_present _ _ _ _ Hm H).
    + apply assoc_remove_key_eq.
    + apply fmap_sublist, remove_key_sublist.
    + pose proof (remove_key_present_length _ _ _ H). lia.
  - exists (drop (evicted (maxsize (URLCache.cache self)) (entries self)) (entries self)).
    split; [|split; [|split]].
    + by rewrite (set_absent _ _ _ Hm H).
    + by apply assoc_drop_None.
    + apply fmap_sublist, sublist_drop.
    + rewrite length_drop. unfold evicted. lia.
Qed.

End URLCacheFacts.

Section Recency.

Import LRUCache.
Implicit Types (ops : list cache_op) (o : cache_op) (key k : string).
Implicit Types (self : URLCache.t).

Lemma last_use_from_snoc i ops o key :
  last_use_from i (ops ++ [o]) key =
  if decide (op_key o = key) then (i + length ops)%nat else last_use_from i ops key.
Proof.
  revert i. induction ops as [|o' ops IH]; intros i; simpl.
  - destruct (decide (op_key o = key)); [f_equal; lia | done].
  - rewrite IH. destruct (decide (op_key o = key)); [|done].
    simpl. f_equal. lia.
Qed.

Lemma last_use_from_bound i ops key :
  (1 <= i -> last_use_from i ops key < i + length ops)%nat.
Proof.
  revert i. induction ops as [|o ops IH]; intros i Hi; simpl; [lia|].
  specialize (IH (S i) ltac:(lia)).
  destruct (last_use_from (S i) ops key); [|lia].
  destruct (decide (op_key o = key)); lia.
Qed.

Lemma last_use_snoc ops o key :
  last_use (ops ++ [o]) key =
  if decide (op_key o = key) then S (length ops) else last_use ops key.
Proof. unfold last_use. by rewrite last_use_from_snoc. Qed.

Lemma last_use_le ops key : (last_use ops key <= length ops)%nat.
Proof. unfold last_use. pose proof (last_use_from_bound 1 ops key). lia. Qed.

Lemma cache_run_snoc ops o self :
  cache_run (ops ++ [o]) self = snd (cache_step o (cache_run ops self)).
Proof. revert self. induction ops as [|o' ops IH]; intros self; simpl; [done|apply IH]. Qed.

Lemma StronglySorted_sublist {A} (R : relation A) (l1 l2 : list A) :
  l1 `sublist_of` l2 -> StronglySorted R l2 -> StronglySorted R l1.
Proof.
  induction 1 as [|x l1 l2 Hs IH|x l1 l2 Hs IH]; intros Hsorted.
  - constructor.
  - apply StronglySorted_cons in Hsorted as [Hall Hrest].
    apply StronglySorted_cons. split; [|by apply IH].
    apply Forall_forall. intros y Hy. rewrite Forall_forall in Hall.
    apply Hall. by eapply elem_of_sublist.
  - apply StronglySorted_cons in Hsorted as [_ Hrest]. by apply IH.
Qed.

Lemma StronglySorted_change {A} (R R' : relation A) (l : list A) :
  (forall x y, x ∈ l -> y ∈ l -> R x y -> R' x y) ->
  StronglySorted R l -> StronglySorted R' l.
Proof.
  induction l as [|x l IH]; intros Himp Hs; [constructor|].
  apply StronglySorted_cons in Hs as [Hall Hrest].
  apply StronglySorted_cons. split.
  - rewrite Forall_forall in *. intros y Hy.
    apply Himp; [apply elem_of_cons; by left | apply elem_of_cons; by right | by apply Hall].
  - apply IH; [|done]. intros a b Ha Hb. apply Himp; apply elem_of_cons; by right.
Qed.

(** The order of the keys that the operation does not name is kept. *)
Lemma sorted_other_keys ops o (ks : list string) :
  op_key o ∉ ks ->
  StronglySorted (used_before ops) ks ->
  StronglySorted (used_before (ops ++ [o])) ks.
Proof.
  intros Hnot. apply StronglySorted_change. intros x y Hx Hy.
  unfold used_before. rewrite !last_use_snoc.
  destruct (decide (op_key o = x)); [by subst|].
  destruct (decide (op_key o = y)); [by subst|]. done.
Qed.

(** The key of the operation, moved to the end, is the most recent. *)
Lemma sorted_touch ops o (ks ks0 : list string) :
  ks0 `sublist_of` ks -> op_key o ∉ ks0 ->
  StronglySorted (used_before ops) ks ->
  StronglySorted (used_before (ops ++ [o])) (ks0 ++ [op_key o]).
Proof.
  intros Hsub Hnot Hs. apply StronglySorted_app. split; [|split].
  - intros x1 x2 Hx1 ->%list_elem_of_singleton.
    unfold used_before. rewrite !last_use_snoc.
    destruct (decide (op_key o = op_key o)); [|done].
    destruct (decide (op_key o = x1)); [by subst|].
    pose proof (last_use_le ops x1). lia.
  - apply sorted_other_keys; [done|]. by eapply StronglySorted_sublist.
  - repeat constructor.
Qed.

Lemma lru_inv_touch N ops o self d0 v :
  lru_inv N ops self -> 1 <= N ->
  assoc (op_key o) d0 = None -> d0.*1 `sublist_of` (entries self).*1 ->
  Z.of_nat (length d0) + 1 <= Z.max N (Z.of_nat (length (entries self))) ->
  forall self', URLCache.cache self' =
                with_data (d0 ++ [(op_key o, v)]) (URLCache.cache self) ->
  lru_inv N (ops ++ [o]) self'.
Proof.
  intros (Hmax & Hlen & Hnd & Hs) HN Hnone Hsub Hbound self' Hc.
  unfold lru_inv, lru_keys, entries, keys in *. rewrite Hc. simpl.
  apply assoc_None in Hnone.
  split; [done|]. split; [|split].
  - rewrite length_app. simpl. lia.
  - rewrite fmap_app. simpl. apply NoDup_app. split; [|split].
    + by eapply sublist_NoDup.
    + intros x Hx ->%list_elem_of_singleton. done.
    + apply NoDup_singleton.
  - rewrite fmap_app. simpl. by eapply sorted_touch.
Qed.

Lemma lru_inv_step N ops o self :
  lru_inv N ops self -> lru_inv N (ops ++ [o]) (snd (cache_step o self)).
Proof.
  intros Hinv. pose proof Hinv as (Hmax & Hlen & Hnd & Hs).
  destruct o as [key|key v]; simpl; unfold_m.
  - destruct (assoc key (entries self)) as [v|] eqn:H.
    + rewrite (get_hit _ _ _ H). simpl.
      destruct (Z_lt_le_dec N 1) as [HN|HN].
      { destruct (entries self); [done|]. simpl in Hlen. lia. }
      eapply (lru_inv_touch N ops (Get key) self (remove_key key (entries self)) v);
        try done.
      * apply assoc_remove_key_eq.
      * apply fmap_sublist, remove_key_sublist.
      * pose proof (remove_key_present_length _ _ _ H). lia.
    + rewrite (get_miss _ _ H). simpl.
      unfold lru_inv, lru_keys, entries in *. simpl.
      repeat split; try done.
      apply sorted_other_keys; [|done]. by apply assoc_None.
  - destruct (Z_lt_le_dec N 1) as [HN|HN].
    + rewrite set_too_large by lia. simpl.
      unfold lru_inv, lru_keys, keys, entries in *.
      destruct (data (URLCache.cache self)) eqn:Hd; [|simpl in Hlen; lia].
      repeat split; try done. constructor.
    + destruct (set_lookup key v self ltac:(lia)) as (d0 & -> & Hnone & Hsub & Hb).
      simpl. eapply (lru_inv_touch N ops (Set_ key v) self d0 v); try done.
      rewrite Hmax in Hb. done.
Qed.

Lemma lru_inv_run N ops : lru_inv N ops (cache_run ops (URLCache.init N)).
Proof.
  induction ops as [|o ops IH] using rev_ind.
  - unfold lru_inv, lru_keys, keys, entries. simpl.
    repeat split; [lia | constructor | constructor].
  - rewrite cache_run_snoc. by apply lru_inv_step.
Qed.

End Recency.

Section Capacity.

Import LRUCache.

Lemma sets_snoc kvs kv : sets (kvs ++ [kv]) = sets kvs ++ [Set_ (fst kv) (snd kv)].
Proof. unfold sets. by rewrite map_app. Qed.

(** Distinct keys written in a row: the cache holds the last [N]. *)
Lemma sets_run (N : Z) (kvs : list (string * option string)) :
  1 <= N -> NoDup kvs.*1 ->
  entries (cache_run (sets kvs) (URLCache.init N)) =
  drop (length kvs - Z.to_nat N) kvs.
Proof.
  intros HN. induction kvs as [|[k v] kvs IH] using rev_ind; intros Hnd; [done|].
  rewrite fmap_app in Hnd. apply NoDup_app in Hnd as (Hnd & Hk & _).
  specialize (IH Hnd).
  rewrite sets_snoc, cache_run_snoc. simpl.
  pose proof (lru_inv_run N (sets kvs)) as (Hmax & _).
  set (self := cache_run (sets kvs) (URLCache.init N)) in *.
  assert (assoc k (entries self) = None) as Hnone.
  { rewrite IH. apply assoc_drop_None, assoc_None. intros Hin.
    apply (Hk k Hin). simpl. apply list_elem_of_singleton. done. }
  rewrite set_absent by (done || lia). simpl.
  unfold entries at 1. simpl. fold (entries self). rewrite Hmax, IH.
  unfold evicted. rewrite length_drop, drop_drop, length_app. simpl.
  destruct (decide (Z.to_nat N <= length kvs)%nat) as [Hle|Hgt].
  - replace (length kvs - Z.to_nat N +
             Z.to_nat (Z.of_nat (length kvs - (length kvs - Z.to_nat N)) + 1 - N))%nat
      with (length kvs + 1 - Z.to_nat N)%nat by lia.
    rewrite drop_app_le by lia. done.
  - replace (length kvs - Z.to_nat N +
             Z.to_nat (Z.of_nat (length kvs - (length kvs - Z.to_nat N)) + 1 - N))%nat
      with 0%nat by lia.
    replace (length kvs + 1 - Z.to_nat N)%nat with 0%nat by lia. done.
Qed.

End Capacity.

(** C2. A cache built with capacity [N] and driven by any sequence of
    [get] and [set] calls never holds more than [N] entries; its entries
    are kept in the order of their last read or write; a new key written
    to a full cache evicts the first entry of that order, the least
    recently used one, and keeps all others; and after [N+1] distinct keys
    have been written the first of them is gone and the others are held. *)
Theorem lru_cache_bounded_and_evicts_least_recent (N : Z) (ops : list cache_op) :
  0 <= N ->
  let self := cache_run ops (URLCache.init N) in
  (exists n, URLCache.size self = (Return n, self) /\ n <= N) /\
  StronglySorted (used_before ops) (lru_keys self) /\
  (forall key value lru rest,
     1 <= N ->
     lru_keys self = lru :: rest ->
     Z.of_nat (length (lru_keys self)) = N ->
     key ∉ lru_keys self ->
     exists self',
       URLCache.set key value self = (Return tt, self') /\
       lru_keys self' = rest ++ [key] /\
       (lru ∉ lru_keys self') /\
       (forall k, k ∈ lru_keys self -> (last_use ops lru <= last_use ops k)%nat)) /\
  (forall kvs : list (string * option string),
     1 <= N -> NoDup kvs.*1 -> Z.of_nat (length kvs) = N + 1 ->
     exists first rest,
       kvs = first :: rest /\
       entries (cache_run (sets kvs) (URLCache.init N)) = rest /\
       fst first ∉ lru_keys (cache_run (sets kvs) (URLCache.init N))).
Proof.
  intros HN self.
  pose proof (lru_inv_run N ops) as (Hmax & Hlen & Hnd & Hs). fold self in Hmax, Hlen, Hnd, Hs.
  split; [|split; [done|split]].
  - exists (LRUCache.len (URLCache.cache self)). split; [done|].
    unfold LRUCache.len. unfold entries in Hlen. lia.
  - intros key value lru rest HN1 Hkeys Hfull Hnew.
    assert (LRUCache.assoc key (entries self) = None) as Hnone by by apply assoc_None.
    rewrite (set_absent key value self) by (done || lia).
    eexists. split; [done|].
    unfold lru_keys, LRUCache.keys, entries in *. simpl. rewrite Hmax.
    destruct (LRUCache.data (URLCache.cache self)) as [|e es] eqn:Hd; [done|].
    simpl in Hkeys. injection Hkeys as Hlru Hrest. subst lru rest.
    unfold evicted. rewrite length_fmap in Hfull.
    replace (Z.to_nat (Z.of_nat (length (e :: es)) + 1 - N)) with 1%nat by lia.
    simpl. rewrite drop_0, fmap_app. simpl.
    split; [done|]. split.
    + rewrite fmap_cons in Hnd. apply NoDup_cons in Hnd as [Hnot _].
      rewrite elem_of_app, list_elem_of_singleton. intros [?|Heq]; [done|].
      apply Hnew. rewrite fmap_cons, <- Heq. apply elem_of_cons. by left.
    + rewrite fmap_cons in Hs. apply StronglySorted_cons in Hs as [Hall _].
      intros k [->|Hin]%elem_of_cons; [done|].
      rewrite Forall_forall in Hall. specialize (Hall k Hin).
      unfold used_before in Hall. lia.
  - intros kvs HN1 Hdistinct Hcount.
    pose proof (sets_run N kvs HN1 Hdistinct) as Hrun.
    destruct kvs as [|first rest]; [simpl in Hcount; lia|].
    exists first, rest. split; [done|].
    replace (length (first :: rest) - Z.to_nat N)%nat with 1%nat in Hrun
      by (simpl length in *; lia).
    change (drop 1 (first :: rest)) with rest in Hrun. split; [done|].
    unfold lru_keys, LRUCache.keys. fold (entries (cache_run (sets (first :: rest)) (URLCache.init N))).
    rewrite Hrun. rewrite fmap_cons in Hdistinct. by apply NoDup_cons in Hdistinct as [? _].
Qed.

Lemma lru_cache_bounded_and_evicts_least_recent_witness :
  0 <= 2 /\
  exists self',
    URLCache.set "c" (Some "3")
      (cache_run [Set_ "a" (Some "1"); Set_ "b" (Some "2"); Get "a"] (URLCache.init 2))
    = (Return tt, self') /\
    lru_keys self' = ["a"; "c"] /\
    "b" ∉ lru_keys self'.
Proof.
  split; [lia|].
  destruct (lru_cache_bounded_and_evicts_least_recent 2
              [Set_ "a" (Some "1"); Set_ "b" (Some "2"); Get "a"])
    as (_ & _ & Hevict & _); [lia|].
  destruct (Hevict "c" (Some "3") "b" ["a"]) as (self' & Hset & Hkeys & Hgone & _).
  - lia.
  - reflexivity.
  - reflexivity.
  - apply (bool_decide_unpack _). by vm_compute.
  - exists self'. auto.
Defined.

Section Lookups.

Implicit Types (s : App) (code : string).

Lemma fetch_by_code_eval code s :
  fetch_by_code code s =
  (Return (row_of_code code (urls s)),
   with_sql_log (sql_log s ++ [select_urls_by_code code]) s).
Proof. reflexivity. Qed.

(** A hit: the cached string decides, and the database is not asked. *)
Lemma lookup_hit code s cached_url :
  cached code s = Some (Some cached_url) ->
  exists s',
    get_original_url code s =
      (Return (if bool_decide (cached_url <> NOT_FOUND) then Some cached_url else None),
       s') /\
    sql_log s' = sql_log s /\ urls s' = urls s /\
    capacity s' = capacity s /\
    cached code s' = Some (Some cached_url).
Proof.
  unfold cached, capacity. intros H. unfold get_original_url, on_cache.
  unfold_m. rewrite (get_hit _ _ _ H). simpl.
  eexists. split; [done|]. simpl. repeat split.
  unfold entries, touch. simpl.
  rewrite assoc_app, assoc_remove_key_eq. simpl. by rewrite decide_True.
Qed.

(** A miss: one query, and its answer (or the marker) is cached. *)
Lemma lookup_miss code s :
  1 <= capacity s -> cached code s = None ->
  exists s',
    get_original_url code s =
      (Return (UrlRow.original_url <$> row_of_code code (urls s)), s') /\
    sql_log s' = sql_log s ++ [select_urls_by_code code] /\
    urls s' = urls s /\
    capacity s' = capacity s /\
    cached code s' =
      Some (Some (default NOT_FOUND (UrlRow.original_url <$> row_of_code code (urls s)))).
Proof.
  unfold cached, capacity. intros Hcap H. unfold get_original_url, on_cache.
  unfold_m. rewrite (get_miss _ _ H). simpl.
  set (self := URLCache.mk _ _ _).
  assert (LRUCache.assoc code (entries self) = None) as H' by done.
  assert (1 <= LRUCache.maxsize (URLCache.cache self)) as Hcap' by done.
  destruct (row_of_code code (urls s)) as [row|]; simpl;
    rewrite (set_absent _ _ _ Hcap' H'); simpl;
    (eexists; split; [done|]; simpl; repeat split);
    unfold entries; simpl; rewrite assoc_app, (assoc_drop_None _ _ _ H'); simpl;
    by rewrite decide_True.
Qed.

(** Once the marker is cached, every further lookup reports not-found
    and leaves the statement log alone. *)
Lemma lookups_after_marker n code s :
  cached code s = Some (Some NOT_FOUND) ->
  fst (get_original_url code (after_lookups n code s)) = Return None /\
  sql_log (after_lookups n code s) = sql_log s /\
  cached code (after_lookups n code s) = Some (Some NOT_FOUND).
Proof.
  revert s. induction n as [|n IH]; intros s H.
  - simpl. destruct (lookup_hit code s NOT_FOUND H) as (s' & -> & _). done.
  - simpl. destruct (lookup_hit code s NOT_FOUND H) as (s' & -> & Hlog & _ & _ & Hc).
    simpl. destruct (IH s' Hc) as (? & ? & ?). repeat split; congruence.
Qed.

End Lookups.

(** C1. [get_original_url] reads the cache first. A cached marker
    [__NOT_FOUND__] gives not-found and a cached URL gives that URL, in
    both cases with no statement sent to the database; on a miss exactly
    one SELECT is sent and its answer is cached, the URL when there is a
    row and the marker when there is none; and after the first lookup of
    an absent code every further lookup reports not-found with the log
    still holding that single SELECT. *)
Theorem get_original_url_cache_then_store (s : App) (code : string) :
  1 <= capacity s ->
  (cached code s = Some (Some NOT_FOUND) ->
     exists s', get_original_url code s = (Return None, s') /\
                sql_log s' = sql_log s) /\
  (forall url, cached code s = Some (Some url) -> url <> NOT_FOUND ->
     exists s', get_original_url code s = (Return (Some url), s') /\
                sql_log s' = sql_log s) /\
  (forall row, cached code s = None -> row_of_code code (urls s) = Some row ->
     exists s', get_original_url code s = (Return (Some (UrlRow.original_url row)), s') /\
                sql_log s' = sql_log s ++ [select_urls_by_code code] /\
                cached code s' = Some (Some (UrlRow.original_url row))) /\
  (cached code s = None -> row_of_code code (urls s) = None ->
     exists s', get_original_url code s = (Return None, s') /\
                sql_log s' = sql_log s ++ [select_urls_by_code code] /\
                cached code s' = Some (Some NOT_FOUND) /\
                forall n,
                  fst (get_original_url code (after_lookups n code s')) = Return None /\
                  sql_log (after_lookups n code s') =
                    sql_log s ++ [select_urls_by_code code]).
Proof.
  intros Hcap. repeat split.
  - intros H. destruct (lookup_hit code s _ H) as (s' & Heq & Hlog & _).
    exists s'. rewrite Heq. by rewrite bool_decide_eq_false_2 by (intros Hne; by apply Hne).
  - intros url H Hne. destruct (lookup_hit code s _ H) as (s' & Heq & Hlog & _).
    exists s'. rewrite Heq. by rewrite bool_decide_eq_true_2.
  - intros row H Hrow. destruct (lookup_miss code s Hcap H) as (s' & Heq & Hlog & _ & _ & Hc).
    exists s'. rewrite Hrow in *. done.
  - intros H Hrow. destruct (lookup_miss code s Hcap H) as (s' & Heq & Hlog & _ & _ & Hc).
    exists s'. rewrite Hrow in *. simpl in *. repeat split; try done.
    + by apply lookups_after_marker.
    + rewrite <- Hlog. by apply lookups_after_marker.
Qed.

Lemma get_original_url_cache_then_store_witness :
  1 <= capacity example_app /\
  exists s',
    get_original_url "ghost" example_app = (Return None, s') /\
    sql_log s' = [select_urls_by_code "ghost"] /\
    cached "ghost" s' = Some (Some NOT_FOUND) /\
    forall n,
      fst (get_original_url "ghost" (after_lookups n "ghost" s')) = Return None /\
      sql_log (after_lookups n "ghost" s') = [select_urls_by_code "ghost"].
Proof.
  split; [by vm_compute|].
  destruct (get_original_url_cache_then_store example_app "ghost") as (_ & _ & _ & H).
  - by vm_compute.
  - apply H; reflexivity.
Defined.

(** C10. When the URL stored for a code is the text [__NOT_FOUND__], the
    first lookup (a cache miss) returns that URL and caches it, and every
    later lookup of the code reports not-found: the marker is a string
    like any URL. *)
Theorem marker_url_lookups_disagree (s : App) (code : string) (row : UrlRow.t) :
  1 <= capacity s ->
  cached code s = None ->
  row_of_code code (urls s) = Some row ->
  UrlRow.original_url row = NOT_FOUND ->
  exists s',
    get_original_url code s = (Return (Some NOT_FOUND), s') /\
    cached code s' = Some (Some NOT_FOUND) /\
    forall n, fst (get_original_url code (after_lookups n code s')) = Return None.
Proof.
  intros Hcap H Hrow Hurl.
  destruct (lookup_miss code s Hcap H) as (s' & Heq & _ & _ & _ & Hc).
  rewrite Hrow in *. simpl in *. rewrite Hurl in *.
  exists s'. repeat split; try done. intros n. by apply lookups_after_marker.
Qed.

Lemma marker_url_lookups_disagree_witness :
  exists s',
    get_original_url "weird1" example_app_marker_url = (Return (Some NOT_FOUND), s') /\
    cached "weird1" s' = Some (Some NOT_FOUND) /\
    forall n, fst (get_original_url "weird1" (after_lookups n "weird1" s')) = Return None.
Proof.
  apply (marker_url_lookups_disagree example_app_marker_url "weird1"
           (UrlRow.mk "weird1" NOT_FOUND 0 true None)).
  - by vm_compute.
  - reflexivity.
  - reflexivity.
  - reflexivity.
Defined.

(** C6, as the code has it. [get] returns one optional value, not a
    pair: the cached value on a hit (counted in [hits]) and [None] on a
    miss (counted in [misses]); it never raises, nor do [invalidate],
    [clear] and [size], nor [set] on a cache of capacity at least one. A
    returned string therefore means that the key is held with that
    string, the marker included; a returned [None] does not tell a miss
    from a held [None]. *)
Theorem cache_get_signals_absence_by_none (self : URLCache.t) (key : string) :
  (forall value, LRUCache.assoc key (entries self) = Some value ->
     exists self', URLCache.get key self = (Return value, self') /\
                   URLCache.hits self' = URLCache.hits self + 1 /\
                   URLCache.misses self' = URLCache.misses self) /\
  (LRUCache.assoc key (entries self) = None ->
     exists self', URLCache.get key self = (Return None, self') /\
                   URLCache.hits self' = URLCache.hits self /\
                   URLCache.misses self' = URLCache.misses self + 1) /\
  (forall text, fst (URLCache.get key self) = Return (Some text) <->
                LRUCache.assoc key (entries self) = Some (Some text)) /\
  (exists self', URLCache.invalidate key self = (Return tt, self')) /\
  (exists self', URLCache.clear self = (Return tt, self')) /\
  (exists n, URLCache.size self = (Return n, self)) /\
  (forall value, 1 <= LRUCache.maxsize (URLCache.cache self) ->
     exists self', URLCache.set key value self = (Return tt, self')).
Proof.
  split; [|split; [|split; [|split; [|split; [|split]]]]].
  - intros value H. rewrite (get_hit _ _ _ H). eexists. done.
  - intros H. rewrite (get_miss _ _ H). eexists. done.
  - intros text. destruct (LRUCache.assoc key (entries self)) as [value|] eqn:H.
    + rewrite (get_hit _ _ _ H). simpl. split; congruence.
    + rewrite (get_miss _ _ H). simpl. split; congruence.
  - rewrite invalidate_remove. eexists. done.
  - eexists. reflexivity.
  - eexists. reflexivity.
  - intros value Hcap. destruct (set_lookup key value self Hcap) as (d0 & -> & _).
    eexists. done.
Qed.

(** C6, as stated, fails: a key held with the value [None] reads exactly
    like a key that is not held. *)
Lemma cached_none_reads_like_absence :
  let holding := snd (URLCache.set "k" None (URLCache.init 2)) in
  LRUCache.assoc "k" (entries holding) = Some None /\
  LRUCache.assoc "k" (entries (URLCache.init 2)) = None /\
  fst (URLCache.get "k" holding) = fst (URLCache.get "k" (URLCache.init 2)).
Proof. repeat split. Qed.

Section Generator.

Implicit Types (s : App) (n j fuel : nat).

Lemma drawn_step source population p k :
  drawn source population p (S k) =
  nth (source p mod length population)%nat population Ascii.zero
    :: drawn source population (S p) k.
Proof.
  unfold drawn. simpl. rewrite Nat.add_0_r. f_equal.
  rewrite <- seq_shift, map_map. apply map_ext. intros i.
  by rewrite Nat.add_succ_r.
Qed.

Lemma random_choices_eval population k s :
  random_choices population k s =
  (Return (drawn (random_source s) population (random_pos s) k),
   with_random_pos (random_pos s + k) s).
Proof.
  revert s. induction k as [|k IH]; intros s.
  - simpl. unfold ret, with_random_pos. rewrite Nat.add_0_r. by destruct s.
  - cbn [random_choices]. unfold random_index. unfold_m. rewrite IH.
    rewrite drawn_step. simpl. unfold with_random_pos. simpl.
    do 2 f_equal. lia.
Qed.

Lemma generate_round fuel s :
  generate_short_code (S fuel) s =
  if taken (candidate s 0) s
  then generate_short_code fuel (after_rounds 1 s)
  else (Return (candidate s 0), after_rounds 1 s).
Proof.
  assert (candidate s 0 =
          string_of_list_ascii
            (drawn (random_source s) (list_ascii_of_string ascii_letters_digits)
               (random_pos s) SHORT_CODE_LENGTH)) as Hcode.
  { unfold candidate, alphabet. by rewrite Nat.mul_0_r, Nat.add_0_r. }
  assert (after_rounds 1 s =
          with_sql_log (sql_log s ++ [select_urls_by_code (candidate s 0)])
            (with_random_pos (random_pos s + SHORT_CODE_LENGTH) s)) as ->.
  { unfold after_rounds. cbn [seq map]. by rewrite Nat.mul_1_r. }
  cbn [generate_short_code]. unfold bind at 1. rewrite random_choices_eval.
  cbv beta iota. rewrite <- Hcode. clear Hcode.
  unfold taken. generalize (candidate s 0). intros code.
  unfold code_exists, bind, ret. rewrite fetch_by_code_eval.
  cbn [urls with_random_pos with_sql_log sql_log cache clicks rate_limit_tracker
       random_source random_pos].
  by destruct (row_of_code code (urls s)).
Qed.

Lemma candidate_after_round s j : candidate (after_rounds 1 s) j = candidate s (S j).
Proof.
  unfold candidate, after_rounds.
  cbn [random_source random_pos with_sql_log with_random_pos].
  do 2 f_equal. unfold SHORT_CODE_LENGTH. lia.
Qed.

Lemma taken_after_rounds code n s : taken code (after_rounds n s) = taken code s.
Proof. reflexivity. Qed.

Lemma App_eq (a b : App) :
  cache a = cache b -> urls a = urls b -> clicks a = clicks b ->
  sql_log a = sql_log b -> rate_limit_tracker a = rate_limit_tracker b ->
  random_source a = random_source b -> random_pos a = random_pos b ->
  a = b.
Proof. destruct a, b; simpl; intros; by subst. Qed.

Lemma after_rounds_succ n s : after_rounds n (after_rounds 1 s) = after_rounds (S n) s.
Proof.
  apply App_eq; try reflexivity.
  - change (sql_log (after_rounds n (after_rounds 1 s)))
      with ((sql_log s ++ map (fun j => select_urls_by_code (candidate s j)) (seq 0 1))
            ++ map (fun j => select_urls_by_code (candidate (after_rounds 1 s) j))
                 (seq 0 n)).
    change (sql_log (after_rounds (S n) s))
      with (sql_log s ++ map (fun j => select_urls_by_code (candidate s j)) (seq 0 (S n))).
    rewrite <- app_assoc. f_equal.
    change (seq 0 (S n)) with (0%nat :: seq 1 n). cbn [map seq app]. f_equal.
    rewrite <- seq_shift, map_map. apply map_ext. intros j.
    by rewrite candidate_after_round.
  - change (random_pos s + SHORT_CODE_LENGTH * 1 + SHORT_CODE_LENGTH * n
            = random_pos s + SHORT_CODE_LENGTH * S n)%nat.
    unfold SHORT_CODE_LENGTH. lia.
Qed.

Lemma first_free_after_round s n :
  first_free s (S n) -> first_free (after_rounds 1 s) n.
Proof.
  intros [Hbefore Hfree]. split.
  - intros j Hj. rewrite candidate_after_round, taken_after_rounds.
    apply Hbefore. lia.
  - by rewrite candidate_after_round, taken_after_rounds.
Qed.

(** Enough fuel: the loop returns the first free draw, after one SELECT
    per round. *)
Lemma generate_first_free s n fuel :
  first_free s n -> (n < fuel)%nat ->
  generate_short_code fuel s = (Return (candidate s n), after_rounds (S n) s).
Proof.
  revert s fuel. induction n as [|n IH]; intros s fuel Hfirst Hfuel;
    (destruct fuel as [|fuel]; [lia|]); rewrite generate_round.
  - destruct Hfirst as [_ ->]. done.
  - pose proof Hfirst as [Hbefore _]. rewrite (Hbefore 0%nat) by lia.
    rewrite (IH (after_rounds 1 s) fuel) by (by apply first_free_after_round || lia).
    by rewrite candidate_after_round, after_rounds_succ.
Qed.

(** Every draw in the table: the loop is still running after any number
    of rounds. *)
Lemma generate_all_taken s fuel :
  (forall j, taken (candidate s j) s = true) ->
  generate_short_code fuel s = (Diverge, after_rounds fuel s).
Proof.
  revert s. induction fuel as [|fuel IH]; intros s Hall.
  - simpl. unfold after_rounds, with_sql_log, with_random_pos. simpl.
    rewrite app_nil_r, Nat.add_0_r. by destruct s.
  - rewrite generate_round, (Hall 0%nat), IH, after_rounds_succ; [done|].
    intros j. by rewrite candidate_after_round, taken_after_rounds.
Qed.

(** What a returning call has returned. *)
Lemma generate_returned fuel s code s' :
  generate_short_code fuel s = (Return code, s') ->
  exists n, (n < fuel)%nat /\ first_free s n /\
            code = candidate s n /\ s' = after_rounds (S n) s.
Proof.
  revert s. induction fuel as [|fuel IH]; intros s; [done|].
  rewrite generate_round. destruct (taken (candidate s 0) s) eqn:Htaken.
  - intros (n & Hn & [Hbefore Hfree] & -> & ->)%IH.
    exists (S n). split; [lia|]. split; [split|].
    + intros [|j] Hj; [done|]. rewrite <- candidate_after_round.
      rewrite <- (taken_after_rounds _ 1). apply Hbefore. lia.
    + by rewrite <- candidate_after_round, <- (taken_after_rounds _ 1).
    + by rewrite candidate_after_round, after_rounds_succ.
  - intros [= <- <-]. exists 0%nat. split; [lia|]. split; [split|]; try done.
    intros j Hj. lia.
Qed.

Lemma string_of_list_length (l : list ascii) :
  String.length (string_of_list_ascii l) = length l.
Proof. induction l; simpl; congruence. Qed.

Lemma candidate_length s j : String.length (candidate s j) = SHORT_CODE_LENGTH.
Proof.
  unfold candidate, drawn. by rewrite string_of_list_length, length_map, length_seq.
Qed.

Lemma candidate_chars s j :
  Forall (fun c => c ∈ alphabet) (list_ascii_of_string (candidate s j)).
Proof.
  unfold candidate, drawn. rewrite list_ascii_of_string_of_list_ascii.
  apply Forall_forall. intros c Hc. apply list_elem_of_In in Hc.
  apply in_map_iff in Hc as (i & <- & _).
  apply list_elem_of_In, nth_In. apply Nat.mod_upper_bound. done.
Qed.

End Generator.

Section GeneratorRuns.

Lemma generate_never_raises fuel s e : fst (generate_short_code fuel s) <> Raise e.
Proof.
  revert s. induction fuel as [|fuel IH]; intros s; [done|].
  rewrite generate_round. destruct (taken (candidate s 0) s); [apply IH | done].
Qed.

Lemma colliding_candidate j :
  candidate colliding_app j =
  if Z.of_nat j <? 10001 then "aaaaaa" else "bbbbbb".
Proof.
  unfold candidate, drawn, SHORT_CODE_LENGTH, colliding_app.
  cbn [random_source random_pos map seq].
  destruct (Z.ltb_spec (Z.of_nat j) 10001).
  - repeat match goal with
           | |- context [Z.of_nat ?x <? 60006] =>
               rewrite (proj2 (Z.ltb_lt (Z.of_nat x) 60006)) by lia
           end.
    reflexivity.
  - repeat match goal with
           | |- context [Z.of_nat ?x <? 60006] =>
               rewrite (proj2 (Z.ltb_ge (Z.of_nat x) 60006)) by lia
           end.
    reflexivity.
Qed.

Lemma colliding_first_free : first_free colliding_app (Z.to_nat 10001).
Proof.
  split.
  - intros j Hj. rewrite colliding_candidate.
    rewrite (proj2 (Z.ltb_lt _ _)) by lia. reflexivity.
  - rewrite colliding_candidate.
    rewrite (proj2 (Z.ltb_ge _ _)) by lia. reflexivity.
Qed.

End GeneratorRuns.

(** C7, as the code has it. [generate_short_code] keeps no count of its
    rounds and has no retry budget: it returns the first draw that is not
    in the table, however many collisions came before; when every draw
    collides it is still looping after any number of rounds; and it never
    raises an exception. *)
Theorem generate_short_code_retries_without_bound (s : App) :
  (forall n fuel, first_free s n -> (n < fuel)%nat ->
     generate_short_code fuel s = (Return (candidate s n), after_rounds (S n) s)) /\
  ((forall j, taken (candidate s j) s = true) ->
     forall fuel, generate_short_code fuel s = (Diverge, after_rounds fuel s)) /\
  (forall fuel e, fst (generate_short_code fuel s) <> Raise e).
Proof.
  split; [|split].
  - intros n fuel Hfirst Hfuel. by apply generate_first_free.
  - intros Hall fuel. by apply generate_all_taken.
  - intros fuel e. apply generate_never_raises.
Qed.

(** C7, as stated, fails: after 10001 collisions in a row the 10002nd
    round returns a code as usual, and with a generator that collides for
    ever the loop neither returns nor raises, whatever the number of
    rounds. *)
Lemma generate_short_code_no_retry_budget :
  (exists s',
     generate_short_code (Z.to_nat 10002) colliding_app = (Return "bbbbbb", s') /\
     length (sql_log s') = Z.to_nat 10002) /\
  (forall fuel, fst (generate_short_code fuel always_colliding_app) = Diverge).
Proof.
  split.
  - exists (after_rounds (S (Z.to_nat 10001)) colliding_app). split.
    + rewrite (generate_first_free colliding_app (Z.to_nat 10001))
        by (apply colliding_first_free || lia).
      rewrite colliding_candidate.
      rewrite (proj2 (Z.ltb_ge _ _)) by lia. reflexivity.
    + unfold after_rounds.
      cbn [sql_log with_sql_log with_random_pos colliding_app].
      rewrite length_app, length_map, length_seq. cbn [length]. lia.
  - intros fuel. rewrite generate_all_taken; [done|]. intros j. reflexivity.
Qed.

(** C8. Whatever [generate_short_code] returns is a string of six
    characters of the 62-symbol alphabet that the table does not hold at
    the moment of return; it is the first draw that did not collide, each
    round before it having drawn six fresh random characters and found
    its code in the table; and the function does return as soon as some
    draw is free. *)
Theorem generate_short_code_returns_unused_code (s : App) :
  length alphabet = 62%nat /\ NoDup alphabet /\
  (forall n fuel, first_free s n -> (n < fuel)%nat ->
     exists code s', generate_short_code fuel s = (Return code, s')) /\
  (forall fuel code s',
     generate_short_code fuel s = (Return code, s') ->
     String.length code = 6%nat /\
     Forall (fun c => c ∈ alphabet) (list_ascii_of_string code) /\
     taken code s' = false /\
     exists n,
       code = candidate s n /\
       (forall j, (j < n)%nat -> taken (candidate s j) s = true) /\
       random_pos s' = (random_pos s + 6 * S n)%nat /\
       sql_log s' =
         sql_log s ++ map (fun j => select_urls_by_code (candidate s j)) (seq 0 (S n))).
Proof.
  split; [reflexivity|]. split; [|split].
  - apply (bool_decide_unpack _). by vm_compute.
  - intros n fuel Hfirst Hfuel. eexists _, _. by apply generate_first_free.
  - intros fuel code s' (n & Hn & [Hbefore Hfree] & -> & ->)%generate_returned.
    split; [apply candidate_length|]. split; [apply candidate_chars|].
    split; [by rewrite taken_after_rounds|].
    exists n. repeat split; done.
Qed.

Section Creation.

Implicit Types (s : App) (code : string).

Lemma row_of_code_snoc code rows (row : UrlRow.t) :
  row_of_code code rows = None -> UrlRow.short_code row = code ->
  row_of_code code (rows ++ [row]) = Some row.
Proof.
  unfold row_of_code. intros Hnone Hcode.
  induction rows as [|r rows IH]; simpl in *.
  - by rewrite bool_decide_eq_true_2.
  - destruct (bool_decide (UrlRow.short_code r = code)); [done|]. by apply IH.
Qed.

(** The tail of [shorten_url]: INSERT, then [cache.invalidate]. *)
Lemma insert_then_invalidate code (row : UrlRow.t) s :
  UrlRow.short_code row = code -> taken code s = false ->
  exists s',
    (forall (A : Type) (k : M App A),
       (insert_url_or_500 row ;; on_cache (URLCache.invalidate code) ;; k)%py s = k s') /\
    row_of_code code (urls s') = Some row /\
    cached code s' = None /\
    capacity s' = capacity s.
Proof.
  unfold taken. intros Hcode Hfree.
  destruct (row_of_code code (urls s)) eqn:Hrow; [done|].
  eexists. split; [|split; [|split]].
  - intros A k. unfold insert_url_or_500, execute, on_cache. unfold_m. simpl.
    rewrite Hcode, Hrow. rewrite invalidate_remove. reflexivity.
  - simpl. by apply row_of_code_snoc.
  - unfold cached, entries. simpl. apply assoc_remove_key_eq.
  - done.
Qed.

Lemma get_existing_code_eval url s :
  get_existing_code url s =
  (Return (UrlRow.short_code <$> row_of_url url (urls s)),
   with_sql_log (sql_log s ++ [select_urls_by_url url]) s).
Proof.
  unfold get_existing_code, fetch_by_url, execute. unfold_m. simpl.
  by destruct (row_of_url url (urls s)).
Qed.

Lemma code_exists_eval code s :
  code_exists code s =
  (Return (taken code s), with_sql_log (sql_log s ++ [select_urls_by_code code]) s).
Proof. reflexivity. Qed.

End Creation.

(** C5. When [shorten_url] has stored a new mapping, whether under a
    custom or a generated code, it has then removed the cache entry of
    that code, whatever it was, a cached marker [__NOT_FOUND__] included;
    the next [get_original_url] of the code misses the cache and returns
    the URL just stored. *)
Theorem shorten_url_invalidates_cache_entry
    (BASE_URL : string) (fuel : nat) (request : URLRequest.t)
    (s s' : App) (response : URLResponse) :
  1 <= capacity s ->
  row_of_url (URLRequest.url request) (urls s) = None ->
  shorten_url BASE_URL fuel request s = (Return response, s') ->
  taken (short_code response) s = false /\
  (exists row, row_of_code (short_code response) (urls s') = Some row /\
               UrlRow.original_url row = URLRequest.url request) /\
  cached (short_code response) s' = None /\
  exists s'',
    get_original_url (short_code response) s' =
      (Return (Some (URLRequest.url request)), s'').
Proof.
  intros Hcap Hnew. unfold shorten_url. unfold bind at 1.
  rewrite get_existing_code_eval, Hnew. cbn [fmap option_fmap option_map truthy_opt].
  set (s1 := with_sql_log _ s).
  assert (forall code (row : UrlRow.t) s2,
            UrlRow.short_code row = code ->
            UrlRow.original_url row = URLRequest.url request ->
            taken code s = false -> urls s2 = urls s -> capacity s2 = capacity s ->
            (insert_url_or_500 row ;; on_cache (URLCache.invalidate code) ;;
             ret (mkURLResponse code (BASE_URL +:+ "/" +:+ code)))%py s2
              = (Return response, s') ->
            taken (short_code response) s = false /\
            (exists row, row_of_code (short_code response) (urls s') = Some row /\
                         UrlRow.original_url row = URLRequest.url request) /\
            cached (short_code response) s' = None /\
            exists s'',
              get_original_url (short_code response) s' =
                (Return (Some (URLRequest.url request)), s'')) as Htail.
  { intros code row s2 Hcode Hurl Hfree Hurls Hcap2.
    assert (taken code s2 = false) as Hfree2 by (unfold taken in *; by rewrite Hurls).
    destruct (insert_then_invalidate code row s2 Hcode Hfree2)
      as (s3 & Hrun & Hrow & Hcached & Hcap3).
    rewrite Hrun. intros [= <- <-]. simpl.
    split; [done|]. split; [by exists row|]. split; [done|].
    destruct (lookup_miss code s3) as (s4 & Hget & _); [lia | done |].
    exists s4. by rewrite Hget, Hrow, <- Hurl. }
  destruct (truthy_opt (URLRequest.custom_code request)) eqn:Hcustom.
  - unfold bind at 1. unfold bind at 1. rewrite code_exists_eval.
    destruct (taken (default "" (URLRequest.custom_code request)) s1) eqn:Htaken;
      [done|].
    unfold ret at 1. cbv beta iota. intros Hrun.
    by eapply Htail in Hrun.
  - unfold bind at 1. unfold bind at 1.
    destruct (generate_short_code fuel s1) as [[code| |] s2] eqn:Hgen; [|done..].
    apply generate_returned in Hgen as (n & _ & [_ Hfree] & -> & ->).
    unfold ret at 1. cbv beta iota. intros Hrun.
    by eapply Htail in Hrun.
Qed.

Lemma shorten_url_invalidates_cache_entry_witness :
  cached "ghost" example_app_ghost_cached = Some (Some NOT_FOUND) /\
  fst (get_original_url "ghost" example_app_ghost_cached) = Return None /\
  exists s' s'',
    shorten_url "http://localhost:8000" 0 ghost_request example_app_ghost_cached =
      (Return (mkURLResponse "ghost" "http://localhost:8000/ghost"), s') /\
    cached "ghost" s' = None /\
    get_original_url "ghost" s' = (Return (Some "https://example.com/ghost"), s'').
Proof.
  split; [reflexivity|]. split; [reflexivity|].
  set (s' := snd (shorten_url "http://localhost:8000" 0 ghost_request
                    example_app_ghost_cached)).
  destruct (shorten_url_invalidates_cache_entry "http://localhost:8000" 0 ghost_request
              example_app_ghost_cached s'
              (mkURLResponse "ghost" "http://localhost:8000/ghost"))
    as (_ & _ & Hcached & s'' & Hget).
  - by vm_compute.
  - reflexivity.
  - reflexivity.
  - exists s', s''. split; [reflexivity|]. split; [exact Hcached | exact Hget].
Defined.

(** C4, on the redirect path. [redirect_url] always sends its SELECT to
    the database and leaves the cache as it found it: it neither reads
    the cache, nor fills it, nor counts a hit or a miss, whatever the
    cache holds for the code. [get_url_info] is the handler that goes
    through [get_original_url], and so answers a cached code without a
    SELECT where [redirect_url] sends one. *)
Theorem redirect_url_never_consults_cache
    (expired_now : string -> outcome bool) (code : string) (request : Request)
    (s : App) :
  cache (snd (redirect_url expired_now code request s)) = cache s /\
  (exists rest,
     sql_log (snd (redirect_url expired_now code request s)) =
       sql_log s ++ select_urls_by_code code :: rest) /\
  snd (get_url_info "http://localhost:8000" code s) = snd (get_original_url code s) /\
  get_url_info "http://localhost:8000" "promo1" example_app_promo_cached =
    (Return (mkURLInfo "promo1" "https://example.com/sale" "http://localhost:8000/promo1"),
     snd (get_url_info "http://localhost:8000" "promo1" example_app_promo_cached)) /\
  sql_log (snd (get_url_info "http://localhost:8000" "promo1" example_app_promo_cached)) =
    sql_log example_app_promo_cached /\
  sql_log (snd (redirect_url expired_now "promo1" request example_app_promo_cached)) <>
    sql_log example_app_promo_cached.
Proof.
  split; [|split; [|split; [|split; [|split]]]].
  - unfold redirect_url, is_expired, record_click, execute. unfold_m. simpl.
    destruct (row_of_code code (urls s)) as [row|]; [|done].
    destruct (truthy_opt (UrlRow.expires_at row)); simpl; [|done].
    destruct (UrlRow.expires_at row) as [e|]; simpl; [|done].
    by destruct (expired_now e) as [[|]| |].
  - unfold redirect_url, is_expired, record_click, execute. unfold_m. simpl.
    destruct (row_of_code code (urls s)) as [row|]; [|by eexists].
    destruct (truthy_opt (UrlRow.expires_at row)); simpl.
    + destruct (UrlRow.expires_at row) as [e|]; simpl.
      * destruct (expired_now e) as [[|]| |]; simpl; try by eexists.
        rewrite <- !app_assoc. by eexists.
      * rewrite <- !app_assoc. by eexists.
    + rewrite <- !app_assoc. by eexists.
  - unfold get_url_info. unfold bind at 1.
    destruct (get_original_url code s) as [[original_url| |] s1]; [|done..].
    by destruct (truthy_opt original_url).
  - reflexivity.
  - reflexivity.
  - by vm_compute.
Qed.

Section Validation.

Context `{Unicode}.

Lemma reserved_elem (r : string) :
  r ∈ reserved <->
  r = "api" \/ r = "health" \/ r = "shorten" \/ r = "info" \/
  r = "analytics" \/ r = "cache" \/ r = "qrcode".
Proof. unfold reserved. rewrite !elem_of_union, !elem_of_singleton. tauto. Qed.

Lemma reserved_lower (r : string) : r ∈ reserved -> lower r = r.
Proof.
  rewrite reserved_elem. intros [->|[->|[->|[->|[->|[->| ->]]]]]]; reflexivity.
Qed.

(** Membership of [v.lower()] is equality with a reserved word up to
    the case of the letters. *)
Lemma lower_in_reserved (v : string) :
  lower v ∈ reserved <-> exists r, r ∈ reserved /\ lower v = lower r.
Proof.
  split.
  - intros Hin. exists (lower v). split; [done|]. by rewrite (reserved_lower _ Hin).
  - intros (r & Hr & ->). by rewrite (reserved_lower _ Hr).
Qed.

(** A character that is being read is a character of the result. *)
Lemma utf8_decode_some (c : Z) (bs : list Z) : utf8_decode (Some c) bs <> [].
Proof.
  revert c. induction bs as [|b bs IH]; intros c; cbn [utf8_decode]; [done|].
  destruct (continuation b); [apply IH | done].
Qed.

Lemma code_points_nonempty (v : string) : v <> "" -> code_points v <> [].
Proof.
  destruct v as [|a v]; [done|]. intros _. unfold code_points.
  cbn [list_ascii_of_string]. rewrite fmap_cons. cbn [utf8_decode].
  destruct (continuation (byte_value a)); apply utf8_decode_some.
Qed.

Lemma isalnum_nonempty (v : string) :
  v <> "" -> isalnum v = forallb isalnum_code_point (code_points v).
Proof.
  intros Hne%code_points_nonempty. unfold isalnum. by destruct (code_points v).
Qed.

Lemma truthy_nonempty (v : string) : v <> "" -> truthy v = true.
Proof. by destruct v. Qed.

(** ASCII bytes are characters of their own. *)
Lemma utf8_decode_ascii (cur : option Z) (bs : list Z) :
  Forall (fun b => b < 128) bs -> utf8_decode cur bs = option_list cur ++ bs.
Proof.
  intros Hbs. revert cur. induction Hbs as [|b bs Hb _ IH]; intros cur.
  - cbn [utf8_decode]. by rewrite app_nil_r.
  - cbn [utf8_decode]. unfold continuation, leading_bits.
    destruct (Z.leb_spec 128 b); [lia|]. cbn [andb].
    destruct (Z.ltb_spec b 128); [|lia]. by rewrite IH.
Qed.

Lemma isascii_bytes (v : string) :
  isascii v = true ->
  Forall (fun b => b < 128) (byte_value <$> list_ascii_of_string v).
Proof.
  unfold isascii. induction v as [|a v IH]; cbn [list_ascii_of_string forallb].
  - intros _. constructor.
  - intros [Ha Hv]%andb_true_iff. rewrite fmap_cons. constructor; [lia | by apply IH].
Qed.

Lemma code_points_ascii (v : string) :
  isascii v = true -> code_points v = byte_value <$> list_ascii_of_string v.
Proof.
  intros Hv. unfold code_points. by rewrite utf8_decode_ascii by by apply isascii_bytes.
Qed.

Lemma list_ascii_length (v : string) :
  length (list_ascii_of_string v) = String.length v.
Proof. induction v as [|a v IH]; simpl; congruence. Qed.

Lemma forallb_elem (f : Z -> bool) (l : list Z) :
  forallb f l = true <-> forall c, c ∈ l -> f c = true.
Proof.
  rewrite forallb_forall. split; intros Hl c Hc; apply Hl; by apply list_elem_of_In.
Qed.

Lemma forallb_elem_false (f : Z -> bool) (l : list Z) :
  forallb f l = false <-> exists c, c ∈ l /\ f c = false.
Proof.
  induction l as [|x l IH]; cbn [forallb].
  - split; [done|]. intros (c & Hc & _). by apply elem_of_nil in Hc.
  - rewrite andb_false_iff, IH. split.
    + intros [Hx|(c & Hc & Hf)]; [exists x | exists c]; (split; [|done]);
        apply elem_of_cons; first [by left | by right].
    + intros (c & [->|Hc]%elem_of_cons & Hf); [by left | right; by exists c].
Qed.

(** The four ways the validator ends on a code that is not empty. *)
Lemma validate_custom_code_nonempty (v : string) :
  v <> "" ->
  validate_custom_code (Some v) =
  if (len v <? 3) || (len v >? 20) then
    Raise (ValueError "Custom code must be 3-20 characters long")
  else if negb (forallb isalnum_code_point (code_points v)) then
    Raise (ValueError "Custom code must be alphanumeric")
  else if bool_decide (exists r, r ∈ reserved /\ lower v = lower r) then
    Raise (ValueError ("Custom code '" +:+ v +:+ "' is reserved"))
  else Return (Some v).
Proof.
  intros Hne. unfold validate_custom_code. cbn [truthy_opt].
  rewrite (truthy_nonempty v Hne), (isalnum_nonempty v Hne).
  destruct ((len v <? 3) || (len v >? 20)); [done|].
  destruct (negb (forallb isalnum_code_point (code_points v))); [done|].
  by rewrite (bool_decide_ext _ _ (lower_in_reserved v)).
Qed.

End Validation.

(** C9, as the code has it. A custom code that is not empty is rejected
    when its length, counted in characters, is outside 3 to 20, else
    when one of its characters is not alphanumeric, else when its
    lower-case form is a reserved word, that is, when it equals a
    reserved word up to the case of its letters, and is accepted
    otherwise. This holds for every code, ASCII or not, and for every
    Unicode table; on an ASCII code the characters are its bytes, the
    alphanumeric ones are the letters A to Z, a to z and the digits, and
    lower-casing maps A to Z to a to z. So ab, api and API are rejected
    and mycode123 is accepted; a code of three accented letters has
    length 3, and café is accepted where the table has é as a
    lower-case letter. An absent code and the empty string pass
    unchecked. *)
Theorem validate_custom_code_rules `{Unicode} :
  (forall v : string,
     v <> "" ->
     (len v < 3 \/ 20 < len v ->
        validate_custom_code (Some v) =
          Raise (ValueError "Custom code must be 3-20 characters long")) /\
     (3 <= len v <= 20 ->
        (exists c, c ∈ code_points v /\ isalnum_code_point c = false) ->
        validate_custom_code (Some v) =
          Raise (ValueError "Custom code must be alphanumeric")) /\
     (3 <= len v <= 20 ->
        (forall c, c ∈ code_points v -> isalnum_code_point c = true) ->
        (exists r, r ∈ reserved /\ lower v = lower r) ->
        validate_custom_code (Some v) =
          Raise (ValueError ("Custom code '" +:+ v +:+ "' is reserved"))) /\
     (3 <= len v <= 20 ->
        (forall c, c ∈ code_points v -> isalnum_code_point c = true) ->
        (forall r, r ∈ reserved -> lower v <> lower r) ->
        validate_custom_code (Some v) = Return (Some v))) /\
  (forall v : string,
     isascii v = true ->
     code_points v = byte_value <$> list_ascii_of_string v /\
     len v = Z.of_nat (String.length v) /\
     lower v = ascii_lower v /\
     (forall c, c ∈ code_points v ->
        isalnum_code_point c = isdigit_ascii c || isupper_ascii c || islower_ascii c)) /\
  validate_custom_code None = Return None /\
  validate_custom_code (Some "") = Return (Some "") /\
  validate_custom_code (Some "ab") =
    Raise (ValueError "Custom code must be 3-20 characters long") /\
  validate_custom_code (Some "api") = Raise (ValueError "Custom code 'api' is reserved") /\
  validate_custom_code (Some "API") = Raise (ValueError "Custom code 'API' is reserved") /\
  validate_custom_code (Some "mycode123") = Return (Some "mycode123") /\
  len "ééé" = 3 /\
  (isalnum_beyond_ascii 233 = true -> lower_beyond_ascii "café" = "café" ->
   validate_custom_code (Some "café") = Return (Some "café")).
Proof.
  split; [|split; [|split_and!]].
  - intros v Hne. rewrite (validate_custom_code_nonempty v Hne).
    split; [|split; [|split]].
    + intros Hlen.
      destruct (Z.ltb_spec (len v) 3); [done|].
      destruct (Z.gtb_spec (len v) 20); [done|]. lia.
    + intros Hlen Hchars%forallb_elem_false.
      destruct (Z.ltb_spec (len v) 3); [lia|].
      destruct (Z.gtb_spec (len v) 20); [lia|]. cbn [orb]. by rewrite Hchars.
    + intros Hlen Hchars%forallb_elem Hres.
      destruct (Z.ltb_spec (len v) 3); [lia|].
      destruct (Z.gtb_spec (len v) 20); [lia|]. cbn [orb]. rewrite Hchars. cbn [negb].
      by rewrite bool_decide_eq_true_2.
    + intros Hlen Hchars%forallb_elem Hres.
      destruct (Z.ltb_spec (len v) 3); [lia|].
      destruct (Z.gtb_spec (len v) 20); [lia|]. cbn [orb]. rewrite Hchars. cbn [negb].
      rewrite bool_decide_eq_false_2; [done|].
      intros (r & Hr & Heq). by apply (Hres r).
  - intros v Hv. pose proof (code_points_ascii v Hv) as Hcp.
    split; [done|]. split; [|split].
    + unfold len. by rewrite Hcp, length_fmap, list_ascii_length.
    + unfold lower. by rewrite Hv.
    + intros c Hc. rewrite Hcp in Hc.
      pose proof (isascii_bytes v Hv) as Hall. rewrite Forall_forall in Hall.
      apply Hall in Hc. unfold isalnum_code_point.
      by destruct (Z.ltb_spec c 128); [|lia].
  - reflexivity.
  - reflexivity.
  - by vm_compute.
  - by vm_compute.
  - by vm_compute.
  - by vm_compute.
  - by vm_compute.
  - intros Halnum Hlower.
    rewrite validate_custom_code_nonempty by done.
    change (len "café") with 4. cbn [Z.ltb Z.gtb Z.compare Pos.compare Pos.compare_cont orb].
    change (code_points "café") with [99; 97; 102; 233].
    cbn [forallb]. unfold isalnum_code_point at 4.
    change (233 <? 128) with false. cbv iota. rewrite Halnum.
    change (isalnum_code_point 99 && (isalnum_code_point 97 &&
              (isalnum_code_point 102 && (true && true)))) with true.
    cbn [negb]. rewrite bool_decide_eq_false_2; [done|].
    intros (r & Hr & Heq). rewrite (reserved_lower r Hr) in Heq.
    unfold lower in Heq. change (isascii "café") with false in Heq. cbv iota in Heq.
    rewrite Hlower in Heq. subst r. apply reserved_elem in Hr.
    by destruct Hr as [?|[?|[?|[?|[?|[?|?]]]]]].
Qed.

(** C9, as stated, fails: the empty string has length 0, outside 3 to 20,
    and is not rejected, whatever the Unicode table. *)
Lemma validate_custom_code_accepts_empty :
  len "" = 0 /\
  forall U : Unicode, validate_custom_code (Some "") = Return (Some "").
Proof. split; [reflexivity | intros U; reflexivity]. Qed.

Section RateLimitFacts.

Implicit Types (LIMIT WINDOW : Z) (now : Q) (ip : string) (s : App).

Lemma float_lt_spec (x y : Q) : float_lt x y = true <-> (x < y)%Q.
Proof.
  unfold float_lt. rewrite negb_true_iff, <- not_true_iff_false, Qle_bool_iff.
  split; [apply Qnot_le_lt | apply Qlt_not_le].
Qed.

Lemma float_lt_false (x y : Q) : float_lt x y = false <-> (y <= x)%Q.
Proof.
  unfold float_lt. by rewrite negb_false_iff, Qle_bool_iff.
Qed.

(** [int] rounds a float that is not negative down, by less than one. *)
Lemma int_nonneg (x : Q) :
  (0 <= x)%Q -> 0 <= int x /\ (x < inject_Z (int x + 1))%Q.
Proof.
  intros Hx. assert (0 <= Qnum x) as Hnum.
  { unfold Qle in Hx. simpl in Hx. lia. }
  assert (int x = Qfloor x) as ->.
  { unfold int. destruct x as [n d]. simpl in *. by apply Z.quot_div_nonneg. }
  split; [|apply Qlt_floor].
  destruct x as [n d]. simpl in *. apply Z.div_pos; lia.
Qed.

Lemma kept_elem WINDOW now (reqs : list Q) (t : Q) :
  t ∈ kept WINDOW now reqs <-> t ∈ reqs /\ (now - inject_Z WINDOW < t)%Q.
Proof.
  unfold kept. rewrite !list_elem_of_In, filter_In, float_lt_spec.
  split; intros [? ?]; (split; [done|lra]).
Qed.

Lemma kept_length WINDOW now (reqs : list Q) :
  (length (kept WINDOW now reqs) <= length reqs)%nat.
Proof. apply List.filter_length_le. Qed.

Lemma check_rate_limit_eval LIMIT WINDOW now ip s :
  check_rate_limit LIMIT WINDOW now ip s =
  let reqs := kept WINDOW now (timestamps ip s) in
  if Z.of_nat (length reqs) >=? LIMIT then
    match reqs with
    | [] => (Raise IndexError, with_tracker (<[ip := reqs]> (rate_limit_tracker s)) s)
    | oldest :: _ =>
        (Return (false,
                 Some (mkRetryInfo (int (inject_Z WINDOW - (now - oldest)) + 1)
                         LIMIT WINDOW)),
         with_tracker (<[ip := reqs]> (rate_limit_tracker s)) s)
    end
  else
    (Return (true, None),
     with_tracker (<[ip := reqs ++ [now]]> (rate_limit_tracker s)) s).
Proof.
  unfold check_rate_limit, timestamps, kept. unfold_m.
  cbn [rate_limit_tracker with_tracker]. rewrite lookup_total_insert_eq.
  cbv zeta. destruct (_ >=? _).
  - by destruct (List.filter _ _).
  - unfold with_tracker. cbn [rate_limit_tracker cache urls clicks sql_log
                              random_source random_pos].
    by rewrite insert_insert_eq.
Qed.

Lemma timestamps_with_tracker ip (reqs : list Q) s :
  timestamps ip (with_tracker (<[ip := reqs]> (rate_limit_tracker s)) s) = reqs.
Proof. unfold timestamps. cbn [rate_limit_tracker with_tracker]. apply lookup_total_insert_eq. Qed.

Lemma check_admits LIMIT WINDOW now ip s :
  Z.of_nat (length (kept WINDOW now (timestamps ip s))) < LIMIT ->
  check_rate_limit LIMIT WINDOW now ip s =
  (Return (true, None),
   with_tracker (<[ip := kept WINDOW now (timestamps ip s) ++ [now]]>
                   (rate_limit_tracker s)) s).
Proof.
  intros H. rewrite check_rate_limit_eval. cbv zeta.
  destruct (_ >=? _) eqn:E; [|done]. apply Z.geb_le in E. lia.
Qed.

Lemma check_rejects LIMIT WINDOW now ip s oldest rest :
  kept WINDOW now (timestamps ip s) = oldest :: rest ->
  LIMIT <= Z.of_nat (length (oldest :: rest)) ->
  check_rate_limit LIMIT WINDOW now ip s =
  (Return (false,
           Some (mkRetryInfo (int (inject_Z WINDOW - (now - oldest)) + 1)
                   LIMIT WINDOW)),
   with_tracker (<[ip := oldest :: rest]> (rate_limit_tracker s)) s).
Proof.
  intros Hk H. rewrite check_rate_limit_eval. cbv zeta. rewrite Hk.
  destruct (_ >=? _) eqn:E; [done|].
  assert (~ LIMIT <= Z.of_nat (length (oldest :: rest))) as Hn.
  { rewrite <- Z.geb_le. by rewrite E. }
  done.
Qed.

(** The oldest kept timestamp is less than a window old, so the wait
    reported is positive, and at the end of the wait it has expired. *)
Lemma retry_after_expires WINDOW now oldest (rest : list Q) (reqs : list Q) :
  kept WINDOW now reqs = oldest :: rest ->
  let retry := int (inject_Z WINDOW - (now - oldest)) + 1 in
  0 < retry /\
  kept WINDOW (now + inject_Z retry) (oldest :: rest) =
    kept WINDOW (now + inject_Z retry) rest.
Proof.
  intros Hk retry.
  assert (oldest ∈ kept WINDOW now reqs) as Hin.
  { rewrite Hk. apply elem_of_cons. by left. }
  apply kept_elem in Hin as [_ Hold].
  destruct (int_nonneg (inject_Z WINDOW - (now - oldest))) as [Hint Hlt]; [lra|].
  split; [unfold retry; lia|].
  unfold kept at 1. cbn [List.filter].
  fold (kept WINDOW (now + inject_Z retry) rest).
  assert (float_lt (now + inject_Z retry - oldest) (inject_Z WINDOW) = false) as ->; [|done].
  apply float_lt_false. unfold retry. lra.
Qed.

End RateLimitFacts.

Section RateLimitSteps.

Implicit Types (LIMIT WINDOW : Z) (now : Q) (ip : string) (s : App).

Lemma check_step_admit LIMIT WINDOW now ip s (reqs reqs' : list Q) :
  timestamps ip s = reqs -> kept WINDOW now reqs = reqs' ->
  Z.of_nat (length reqs') < LIMIT ->
  exists s',
    check_rate_limit LIMIT WINDOW now ip s = (Return (true, None), s') /\
    timestamps ip s' = reqs' ++ [now].
Proof.
  intros <- <- H. rewrite check_admits by done.
  eexists. split; [done|]. apply timestamps_with_tracker.
Qed.

Lemma check_step_reject LIMIT WINDOW now ip s (reqs rest : list Q) oldest :
  timestamps ip s = reqs -> kept WINDOW now reqs = oldest :: rest ->
  LIMIT <= Z.of_nat (length (oldest :: rest)) ->
  exists s',
    check_rate_limit LIMIT WINDOW now ip s =
      (Return (false,
               Some (mkRetryInfo (int (inject_Z WINDOW - (now - oldest)) + 1)
                       LIMIT WINDOW)), s') /\
    timestamps ip s' = oldest :: rest.
Proof.
  intros <- Hk H. rewrite (check_rejects _ _ _ _ _ _ _ Hk H).
  eexists. split; [done|]. apply timestamps_with_tracker.
Qed.

Lemma kept_cons_in WINDOW now t (reqs : list Q) :
  (now - t < inject_Z WINDOW)%Q ->
  kept WINDOW now (t :: reqs) = t :: kept WINDOW now reqs.
Proof.
  intros H. unfold kept. cbn [List.filter].
  by rewrite (proj2 (float_lt_spec _ _) H).
Qed.

Lemma kept_cons_out WINDOW now t (reqs : list Q) :
  (inject_Z WINDOW <= now - t)%Q ->
  kept WINDOW now (t :: reqs) = kept WINDOW now reqs.
Proof.
  intros H. unfold kept. cbn [List.filter].
  by rewrite (proj2 (float_lt_false _ _) H).
Qed.

Lemma check_other_clients LIMIT WINDOW now ip ip' s :
  ip' <> ip ->
  timestamps ip' (snd (check_rate_limit LIMIT WINDOW now ip s)) = timestamps ip' s.
Proof.
  intros Hne. rewrite check_rate_limit_eval. cbv zeta. unfold timestamps.
  destruct (_ >=? _); [destruct (kept _ _ _)|];
    cbn [snd rate_limit_tracker with_tracker];
    by rewrite lookup_total_insert_ne.
Qed.

Lemma check_keeps_bound LIMIT WINDOW now ip s :
  Z.of_nat (length (timestamps ip s)) <= LIMIT ->
  Z.of_nat (length (timestamps ip (snd (check_rate_limit LIMIT WINDOW now ip s)))) <= LIMIT.
Proof.
  intros Hinv. rewrite check_rate_limit_eval. cbv zeta.
  pose proof (kept_length WINDOW now (timestamps ip s)) as Hlen.
  destruct (_ >=? _) eqn:E.
  - destruct (kept WINDOW now (timestamps ip s)) eqn:Hk; cbn [snd];
      rewrite timestamps_with_tracker; simpl in *; lia.
  - assert (~ LIMIT <= Z.of_nat (length (kept WINDOW now (timestamps ip s)))) as Hn.
    { rewrite <- Z.geb_le. by rewrite E. }
    cbn [snd]. rewrite timestamps_with_tracker, length_app. simpl. lia.
Qed.

End RateLimitSteps.

(** C3, as the code has it. For a limit of at least one, a check keeps
    the client's timestamps that are less than a window old (one that is
    exactly [WINDOW] seconds old is dropped); when at least [LIMIT] are
    kept it rejects, stores the kept ones and reports
    [int(WINDOW - (now - oldest)) + 1], a positive number of seconds after
    which a new check is admitted; otherwise it admits and appends [now].
    A client never has more than [LIMIT] timestamps recorded, and other
    clients are not touched. With a limit of 3 and a fresh client,
    three checks within one window are admitted, a fourth is rejected with
    a positive wait, and a check made once the first request is a window
    old is admitted. *)
Theorem check_rate_limit_sliding_window :
  (forall (LIMIT WINDOW : Z) (now : Q) (ip : string) (s : App),
     1 <= LIMIT ->
     let reqs := kept WINDOW now (timestamps ip s) in
     (forall t, t ∈ reqs <-> t ∈ timestamps ip s /\ (now - inject_Z WINDOW < t)%Q) /\
     (LIMIT <= Z.of_nat (length reqs) ->
        exists oldest rest retry s',
          reqs = oldest :: rest /\
          retry = int (inject_Z WINDOW - (now - oldest)) + 1 /\
          check_rate_limit LIMIT WINDOW now ip s =
            (Return (false, Some (mkRetryInfo retry LIMIT WINDOW)), s') /\
          timestamps ip s' = reqs /\
          0 < retry /\
          (Z.of_nat (length (timestamps ip s)) <= LIMIT ->
             fst (check_rate_limit LIMIT WINDOW (now + inject_Z retry) ip s') =
               Return (true, None))) /\
     (Z.of_nat (length reqs) < LIMIT ->
        exists s',
          check_rate_limit LIMIT WINDOW now ip s = (Return (true, None), s') /\
          timestamps ip s' = reqs ++ [now]) /\
     (Z.of_nat (length (timestamps ip s)) <= LIMIT ->
        Z.of_nat (length (timestamps ip (snd (check_rate_limit LIMIT WINDOW now ip s))))
          <= LIMIT) /\
     (forall ip', ip' <> ip ->
        timestamps ip' (snd (check_rate_limit LIMIT WINDOW now ip s)) = timestamps ip' s)) /\
  (forall (WINDOW : Z) (ip : string) (s : App) (t1 t2 t3 t4 t5 : Q),
     timestamps ip s = [] ->
     (t1 <= t2)%Q -> (t2 <= t3)%Q -> (t3 <= t4)%Q ->
     (t4 - t1 < inject_Z WINDOW)%Q ->
     (t1 + inject_Z WINDOW <= t5)%Q ->
     exists info,
       fst (checks 3 WINDOW ip [t1; t2; t3; t4; t5] s) =
         [Return (true, None); Return (true, None); Return (true, None);
          Return (false, Some info); Return (true, None)] /\
       0 < retry_after info).
Proof.
  split.
  - intros LIMIT WINDOW now ip s HL reqs. split; [|split; [|split; [|split]]].
    + intros t. apply kept_elem.
    + intros Hfull. destruct reqs as [|oldest rest] eqn:Hk; [simpl in Hfull; lia|].
      destruct (check_step_reject LIMIT WINDOW now ip s _ rest oldest eq_refl Hk Hfull)
        as (s' & Hcheck & Hts).
      destruct (retry_after_expires WINDOW now oldest rest _ Hk) as [Hpos Hexp].
      exists oldest, rest, (int (inject_Z WINDOW - (now - oldest)) + 1), s'.
      repeat split; try done.
      intros Hinv.
      destruct (check_step_admit LIMIT WINDOW
                  (now + inject_Z (int (inject_Z WINDOW - (now - oldest)) + 1)) ip s'
                  _ _ Hts eq_refl) as (s'' & -> & _); [|done].
      rewrite Hexp.
      pose proof (kept_length WINDOW
                    (now + inject_Z (int (inject_Z WINDOW - (now - oldest)) + 1)) rest).
      pose proof (kept_length WINDOW now (timestamps ip s)) as Hlen.
      fold reqs in Hlen. rewrite Hk in Hlen. simpl in Hlen. lia.
    + intros Hroom. by apply (check_step_admit LIMIT WINDOW now ip s (timestamps ip s)).
    + apply check_keeps_bound.
    + intros ip' Hne. by apply check_other_clients.
  - intros WINDOW ip s t1 t2 t3 t4 t5 Hfresh H12 H23 H34 Hwithin Hpassed.
    cbn [checks].
    destruct (check_step_admit 3 WINDOW t1 ip s [] [] Hfresh eq_refl)
      as (s1 & -> & Hts1); [simpl; lia|].
    destruct (check_step_admit 3 WINDOW t2 ip s1 [t1] [t1] Hts1)
      as (s2 & -> & Hts2); [by rewrite kept_cons_in by lra | simpl; lia |].
    destruct (check_step_admit 3 WINDOW t3 ip s2 [t1; t2] [t1; t2] Hts2)
      as (s3 & -> & Hts3); [by rewrite !kept_cons_in by lra | simpl; lia |].
    destruct (check_step_reject 3 WINDOW t4 ip s3 [t1; t2; t3] [t2; t3] t1 Hts3)
      as (s4 & -> & Hts4); [by rewrite !kept_cons_in by lra | simpl; lia |].
    destruct (check_step_admit 3 WINDOW t5 ip s4 [t1; t2; t3] (kept WINDOW t5 [t2; t3]) Hts4)
      as (s5 & -> & _).
    { by rewrite kept_cons_out by lra. }
    { pose proof (kept_length WINDOW t5 [t2; t3]). simpl in *. lia. }
    eexists. split; [reflexivity|]. simpl.
    destruct (int_nonneg (inject_Z WINDOW - (t4 - t1))) as [Hint _]; [lra|]. lia.
Qed.

Lemma check_rate_limit_sliding_window_witness :
  exists info,
    fst (checks 3 60 "10.0.0.1" [0; 0; 1 # 2; 1; 61]%Q example_app) =
      [Return (true, None); Return (true, None); Return (true, None);
       Return (false, Some info); Return (true, None)] /\
    0 < retry_after info.
Proof.
  destruct check_rate_limit_sliding_window as [_ Hscenario].
  apply Hscenario.
  - reflexivity.
  - by vm_compute.
  - by vm_compute.
  - by vm_compute.
  - by vm_compute.
  - by vm_compute.
Defined.

(** C3, as stated, fails in two places. A request exactly one window old
    is not older than [now - windowSeconds], yet the code drops it and
    admits the next request where the wording rejects it; and with a
    clock reading of half a second the code reports a wait of 60, which is
    neither [windowSeconds - (now - oldest) + 1] nor that value rounded
    up. *)
Lemma check_rate_limit_differs_from_wording :
  timestamps "10.0.0.1" one_request_app = [0%Q] /\
  older_than_window 60 60 0 = false /\
  admitted_as_specified 1 60 60 (timestamps "10.0.0.1" one_request_app) = false /\
  fst (check_rate_limit 1 60 60 "10.0.0.1" one_request_app) = Return (true, None) /\
  fst (check_rate_limit 1 60 (1 # 2) "10.0.0.1" one_request_app) =
    Return (false, Some (mkRetryInfo 60 1 60)) /\
  ~ (inject_Z 60 == retry_after_as_specified 60 (1 # 2) 0)%Q /\
  Qceiling (retry_after_as_specified 60 (1 # 2) 0) = 61.
Proof. repeat split; by vm_compute. Qed.

(** * Further properties of the cache *)

Section CacheCounters.

Import LRUCache.
Implicit Types (self : URLCache.t) (key : string) (ops : list cache_op).

Lemma assoc_touch key v key' (d : list (string * option string)) :
  assoc key d = Some v -> assoc key' (touch key v d) = assoc key' d.
Proof.
  intros H. unfold touch. rewrite assoc_app.
  destruct (decide (key' = key)) as [->|Hne].
  - rewrite assoc_remove_key_eq. simpl. by rewrite decide_True.
  - rewrite (assoc_remove_key_ne _ _ _ Hne).
    destruct (assoc key' d); [done|]. simpl. by rewrite decide_False.
Qed.

Lemma cache_step_counters o self :
  URLCache.hits (snd (cache_step o self)) + URLCache.misses (snd (cache_step o self)) =
    URLCache.hits self + URLCache.misses self + (if is_get o then 1 else 0) /\
  URLCache.hits self <= URLCache.hits (snd (cache_step o self)) /\
  URLCache.misses self <= URLCache.misses (snd (cache_step o self)).
Proof.
  destruct o as [key|key v]; simpl.
  - unfold bind, ret. destruct (assoc key (entries self)) as [v|] eqn:H.
    + rewrite (get_hit _ _ _ H). simpl. lia.
    + rewrite (get_miss _ _ H). simpl. lia.
  - unfold URLCache.set, URLCache.on_cache, zoom.
    destruct (setitem key v (URLCache.cache self)). simpl. lia.
Qed.

End CacheCounters.

Lemma cache_run_counter_sum (ops : list cache_op) (self : URLCache.t) :
  URLCache.hits (cache_run ops self) + URLCache.misses (cache_run ops self) =
    URLCache.hits self + URLCache.misses self
    + Z.of_nat (length (List.filter is_get ops)).
Proof.
  revert self. induction ops as [|o ops IH]; intros self; simpl; [lia|].
  pose proof (cache_step_counters o self) as (Hsum & _).
  rewrite IH. destruct (is_get o); simpl length; lia.
Qed.

Lemma cache_run_counters_grow (ops : list cache_op) (self : URLCache.t) :
  URLCache.hits self <= URLCache.hits (cache_run ops self) /\
  URLCache.misses self <= URLCache.misses (cache_run ops self).
Proof.
  revert self. induction ops as [|o ops IH]; intros self; simpl; [lia|].
  pose proof (cache_step_counters o self) as (_ & Hh & Hm).
  pose proof (IH (snd (cache_step o self))) as (IHh & IHm). lia.
Qed.

(** X1. Every [get] adds one to [hits] or to [misses] and [set] leaves
    both alone: after any sequence of calls the two counters have grown,
    together, by the number of [get] calls, and neither has gone down. *)
Theorem get_calls_are_counted (ops : list cache_op) (self : URLCache.t) :
  URLCache.hits (cache_run ops self) + URLCache.misses (cache_run ops self) =
    URLCache.hits self + URLCache.misses self
    + Z.of_nat (length (List.filter is_get ops)) /\
  URLCache.hits self <= URLCache.hits (cache_run ops self) /\
  URLCache.misses self <= URLCache.misses (cache_run ops self).
Proof.
  split.
  - apply cache_run_counter_sum.
  - apply cache_run_counters_grow.
Qed.

(** X2. [stats()] never raises; on a cache built by [URLCache(N)] and
    used through [get] and [set] its two counters add up to the number of
    [get] calls, its size is the number of entries and at most [N] (or 0),
    and its hit rate lies between 0 and 1, is [hits / (hits + misses)]
    when some [get] was made, and is 0 exactly when there was no hit. *)
Theorem stats_of_used_cache (N : Z) (ops : list cache_op) (timestamp : string) :
  let self := cache_run ops (URLCache.init N) in
  exists st,
    stats timestamp self = (Return st, self) /\
    stat_hits st + stat_misses st = Z.of_nat (length (List.filter is_get ops)) /\
    stat_size st = Z.of_nat (length (entries self)) /\
    stat_size st <= Z.max 0 N /\
    stat_max_size st = N /\
    (0 <= stat_hit_rate st)%Q /\ (stat_hit_rate st <= 1)%Q /\
    (0 < stat_hits st + stat_misses st ->
       (stat_hit_rate st * inject_Z (stat_hits st + stat_misses st)
        == inject_Z (stat_hits st))%Q) /\
    ((stat_hit_rate st == 0)%Q <-> stat_hits st = 0).
Proof.
  intros self.
  pose proof (cache_run_counter_sum ops (URLCache.init N)) as Hsum.
  pose proof (cache_run_counters_grow ops (URLCache.init N)) as (Hh & Hm).
  pose proof (lru_inv_run N ops) as (Hmax & Hlen & _).
  fold self in Hsum, Hh, Hm, Hmax, Hlen. simpl in Hsum, Hh, Hm.
  eexists. split; [reflexivity|]. cbn [stat_hits stat_misses stat_size stat_max_size
                                        stat_hit_rate].
  set (h := URLCache.hits self) in *. set (m := URLCache.misses self) in *.
  split; [lia|]. split; [done|]. split; [exact Hlen|]. split; [done|].
  destruct (Z.gtb_spec (h + m) 0) as [Hpos|Hzero].
  - assert (0 < inject_Z (h + m))%Q as Hq by (rewrite <- (Zlt_Qlt 0); lia).
    assert (0 <= inject_Z h)%Q as Hh0 by (rewrite <- (Zle_Qle 0); lia).
    assert (inject_Z h <= inject_Z (h + m))%Q as Hle by (rewrite <- Zle_Qle; lia).
    split; [|split; [|split; [|split]]].
    + apply Qle_shift_div_l; [done|]. by rewrite Qmult_0_l.
    + apply Qle_shift_div_r; [done|]. by rewrite Qmult_1_l.
    + intros _. field. intros Hc. rewrite Hc in Hq. by apply Qlt_irrefl in Hq.
    + intros Hrate.
      assert (inject_Z h == 0)%Q as Hh1.
      { rewrite <- (Qmult_div_r (inject_Z h) (inject_Z (h + m))).
        - rewrite Hrate. ring.
        - intros Hc. rewrite Hc in Hq. by apply Qlt_irrefl in Hq. }
      apply (proj1 (inject_Z_injective h 0)). exact Hh1.
    + intros ->. unfold Qdiv. by rewrite Qmult_0_l.
  - split; [done|]. split; [done|]. split; [lia|]. split; [lia|]. done.
Qed.

(** X3. [get] never raises and never changes what the cache holds: every
    key reads the same before and after, and the capacity is kept; a
    hit returns the held value and a miss returns [None]. *)
Theorem get_keeps_contents (self : URLCache.t) (key : string) :
  exists self',
    URLCache.get key self =
      (Return (default None (LRUCache.assoc key (entries self))), self') /\
    (forall key', LRUCache.assoc key' (entries self') = LRUCache.assoc key' (entries self)) /\
    LRUCache.maxsize (URLCache.cache self') = LRUCache.maxsize (URLCache.cache self).
Proof.
  destruct (LRUCache.assoc key (entries self)) as [v|] eqn:H.
  - rewrite (get_hit _ _ _ H). eexists. split; [done|]. split; [|done].
    intros key'. unfold entries at 1. simpl. by apply assoc_touch.
  - rewrite (get_miss _ _ H). eexists. split; [done|]. done.
Qed.

(** X4. On a cache of capacity at least one, [set] followed by [get] of
    the same key returns the value just written, as a hit; [set] leaves
    the counters alone, and when the key was already held, or the cache
    was not full, every other key reads as before. *)
Theorem set_then_get (self : URLCache.t) (key : string) (value : option string) :
  1 <= LRUCache.maxsize (URLCache.cache self) ->
  exists self' self'',
    URLCache.set key value self = (Return tt, self') /\
    URLCache.get key self' = (Return value, self'') /\
    URLCache.hits self'' = URLCache.hits self + 1 /\
    URLCache.misses self'' = URLCache.misses self /\
    (forall key',
       key' <> key ->
       LRUCache.assoc key (entries self) <> None \/
       Z.of_nat (length (entries self)) < LRUCache.maxsize (URLCache.cache self) ->
       LRUCache.assoc key' (entries self') = LRUCache.assoc key' (entries self)).
Proof.
  intros Hcap. destruct (LRUCache.assoc key (entries self)) as [v0|] eqn:H.
  - rewrite (set_present _ _ _ _ Hcap H).
    set (self' := with_entries _ self).
    assert (LRUCache.assoc key (entries self') = Some value) as Hheld.
    { unfold self', entries, touch. simpl.
      rewrite assoc_app, assoc_remove_key_eq. simpl. by rewrite decide_True. }
    exists self'. eexists. split; [done|]. rewrite (get_hit _ _ _ Hheld).
    split; [done|]. split; [done|]. split; [done|].
    intros key' Hne _. unfold self', entries, touch. simpl.
    rewrite assoc_app, (assoc_remove_key_ne _ _ _ Hne).
    fold (entries self). destruct (LRUCache.assoc key' (entries self)); [done|].
    simpl. by rewrite decide_False.
  - rewrite (set_absent _ _ _ Hcap H).
    set (self' := with_entries _ self).
    assert (LRUCache.assoc key (entries self') = Some value) as Hheld.
    { unfold self', entries. simpl.
      rewrite assoc_app, (assoc_drop_None _ _ _ H). simpl. by rewrite decide_True. }
    exists self'. eexists. split; [done|]. rewrite (get_hit _ _ _ Hheld).
    split; [done|]. split; [done|]. split; [done|].
    intros key' Hne [Hheld'|Hroom]; [done|].
    unfold self', entries. simpl. fold (entries self).
    unfold evicted.
    replace (Z.to_nat (Z.of_nat (length (entries self)) + 1
                       - LRUCache.maxsize (URLCache.cache self))) with 0%nat by lia.
    rewrite drop_0, assoc_app.
    destruct (LRUCache.assoc key' (entries self)); [done|].
    simpl. by rewrite decide_False.
Qed.

Lemma set_then_get_witness :
  exists self' self'',
    URLCache.set "a" (Some "1") (URLCache.init 1) = (Return tt, self') /\
    URLCache.get "a" self' = (Return (Some "1"), self'') /\
    URLCache.hits self'' = 1.
Proof.
  destruct (set_then_get (URLCache.init 1) "a" (Some "1"))
    as (self' & self'' & Hset & Hget & Hhits & _); [by vm_compute|].
  exists self', self''. split; [exact Hset|]. split; [exact Hget|]. exact Hhits.
Defined.

(** X5. [invalidate] never raises and removes the key and nothing else:
    the key then reads as a miss, every other key reads as before and
    keeps its place in the recency order, and the counters and the
    capacity are untouched. *)
Theorem invalidate_removes_only_key (self : URLCache.t) (key : string) :
  exists self',
    URLCache.invalidate key self = (Return tt, self') /\
    LRUCache.assoc key (entries self') = None /\
    fst (URLCache.get key self') = Return None /\
    (forall key', key' <> key ->
       LRUCache.assoc key' (entries self') = LRUCache.assoc key' (entries self)) /\
    lru_keys self' = List.filter (fun k => negb (bool_decide (k = key))) (lru_keys self) /\
    URLCache.hits self' = URLCache.hits self /\
    URLCache.misses self' = URLCache.misses self /\
    LRUCache.maxsize (URLCache.cache self') = LRUCache.maxsize (URLCache.cache self).
Proof.
  rewrite invalidate_remove. eexists. split; [done|].
  assert (LRUCache.assoc key (entries (with_entries
            (LRUCache.remove_key key (entries self)) self)) = None) as Hgone.
  { unfold entries at 1. simpl. apply assoc_remove_key_eq. }
  split; [exact Hgone|]. split; [by rewrite (get_miss _ _ Hgone)|].
  split; [|split; [|done]].
  - intros key' Hne. unfold entries at 1. simpl. by apply assoc_remove_key_ne.
  - unfold lru_keys, LRUCache.keys, entries, LRUCache.remove_key. simpl.
    induction (LRUCache.data (URLCache.cache self)) as [|[k v] d IH]; [done|].
    rewrite (fmap_cons fst (k, v) d). cbn [List.filter fst].
    destruct (bool_decide (k = key)); cbn [negb]; [exact IH|].
    rewrite fmap_cons. cbn [fst]. by rewrite IH.
Qed.

(** * Further properties of the rate limiter *)

Section WindowFacts.

Implicit Types (LIMIT WINDOW : Z) (now : Q) (ip : string) (s : App).

Lemma kept_app WINDOW now (l1 l2 : list Q) :
  kept WINDOW now (l1 ++ l2) = kept WINDOW now l1 ++ kept WINDOW now l2.
Proof. apply List.filter_app. Qed.

(** A later check drops whatever an earlier one dropped. *)
Lemma kept_kept WINDOW now now' (l : list Q) :
  (now <= now')%Q -> kept WINDOW now' (kept WINDOW now l) = kept WINDOW now' l.
Proof.
  intros Hle. induction l as [|t l IH]; [done|].
  destruct (float_lt (now - t) (inject_Z WINDOW)) eqn:E.
  - apply float_lt_spec in E. rewrite (kept_cons_in WINDOW now t l E).
    unfold kept in *. cbn [List.filter]. rewrite IH. done.
  - apply float_lt_false in E. rewrite (kept_cons_out WINDOW now t l E).
    rewrite (kept_cons_out WINDOW now' t l) by lra. done.
Qed.

Lemma check_timestamps LIMIT WINDOW now ip s :
  timestamps ip (snd (check_rate_limit LIMIT WINDOW now ip s)) =
  kept WINDOW now (timestamps ip s)
  ++ match fst (check_rate_limit LIMIT WINDOW now ip s) with
     | Return (true, _) => [now]
     | _ => []
     end.
Proof.
  rewrite check_rate_limit_eval. cbv zeta.
  destruct (_ >=? _); [destruct (kept _ _ _) eqn:Hk|];
    cbn [fst snd]; rewrite timestamps_with_tracker; by rewrite ?app_nil_r.
Qed.

Lemma admitted_times_snoc LIMIT WINDOW ip (times : list Q) now s :
  admitted_times LIMIT WINDOW ip (times ++ [now]) s =
  let s1 := snd (admitted_times LIMIT WINDOW ip times s) in
  (fst (admitted_times LIMIT WINDOW ip times s)
   ++ match fst (check_rate_limit LIMIT WINDOW now ip s1) with
      | Return (true, _) => [now]
      | _ => []
      end,
   snd (check_rate_limit LIMIT WINDOW now ip s1)).
Proof.
  revert s. induction times as [|t times IH]; intros s; cbn [admitted_times app].
  - cbv zeta. cbn [fst snd app].
    destruct (check_rate_limit LIMIT WINDOW now ip s) as [[[[|] ?]| |] s']; done.
  - destruct (check_rate_limit LIMIT WINDOW t ip s) as [r s'].
    rewrite IH. cbv zeta.
    destruct (admitted_times LIMIT WINDOW ip times s') as [adm s1]. cbn [fst snd].
    by destruct r as [[[|] ?]| |].
Qed.

(** Seen from any later instant, the recorded timestamps of a client are
    its admitted requests. *)
Lemma recorded_are_admitted LIMIT WINDOW ip (times : list Q) s now' :
  timestamps ip s = [] ->
  (forall t, t ∈ times -> (t <= now')%Q) ->
  kept WINDOW now' (timestamps ip (snd (admitted_times LIMIT WINDOW ip times s))) =
  kept WINDOW now' (fst (admitted_times LIMIT WINDOW ip times s)).
Proof.
  intros Hfresh. induction times as [|now times IH] using rev_ind; intros Hbefore.
  - simpl. by rewrite Hfresh.
  - rewrite admitted_times_snoc. cbv zeta. cbn [fst snd].
    rewrite check_timestamps, !kept_app.
    rewrite kept_kept by (apply Hbefore, elem_of_app; right; by apply list_elem_of_singleton).
    rewrite IH; [done|]. intros t Ht. apply Hbefore, elem_of_app. by left.
Qed.

End WindowFacts.

(** X6. A check records its client for good: whether it admits, rejects
    or fails, the clients held by the tracker afterwards are those held
    before plus the checked one, so the number of active clients that
    [get_rate_limit_stats] reports never goes down. *)
Theorem check_rate_limit_tracks_client
    (LIMIT WINDOW : Z) (now : Q) (ip timestamp : string) (s : App) :
  let s' := snd (check_rate_limit LIMIT WINDOW now ip s) in
  dom (rate_limit_tracker s') = {[ ip ]} ∪ dom (rate_limit_tracker s) /\
  exists before after,
    fst (get_rate_limit_stats LIMIT WINDOW timestamp s) = Return before /\
    fst (get_rate_limit_stats LIMIT WINDOW timestamp s') = Return after /\
    active_ips before <= active_ips after /\
    (ip ∉ dom (rate_limit_tracker s) -> active_ips after = active_ips before + 1).
Proof.
  intros s'.
  assert (exists reqs, rate_limit_tracker s' = <[ip := reqs]> (rate_limit_tracker s))
    as [reqs Hs'].
  { unfold s'. rewrite check_rate_limit_eval. cbv zeta.
    destruct (_ >=? _); [destruct (kept _ _ _)|]; by eexists. }
  split; [by rewrite Hs', dom_insert_L|].
  eexists _, _. split; [reflexivity|]. split; [reflexivity|].
  cbn [active_ips]. rewrite Hs'.
  destruct (rate_limit_tracker s !! ip) as [old|] eqn:Hold.
  - rewrite map_size_insert_Some by done. split; [lia|].
    intros Hnot. apply not_elem_of_dom in Hnot. congruence.
  - rewrite map_size_insert_None by done. split; lia.
Qed.

(** X7. The limit holds over every window. For a client with no recorded
    request, after checks at any clock readings, a check that is admitted
    at an instant not earlier than those readings finds at most
    [LIMIT] admitted requests of the client, itself included, that are
    less than a window old. *)
Theorem admitted_requests_per_window
    (LIMIT WINDOW : Z) (ip : string) (times : list Q) (now : Q) (s : App) :
  timestamps ip s = [] ->
  (forall t, t ∈ times -> (t <= now)%Q) ->
  fst (check_rate_limit LIMIT WINDOW now ip
         (snd (admitted_times LIMIT WINDOW ip times s))) = Return (true, None) ->
  Z.of_nat
    (length (kept WINDOW now (fst (admitted_times LIMIT WINDOW ip times s) ++ [now])))
  <= LIMIT.
Proof.
  intros Hfresh Hbefore.
  pose proof (recorded_are_admitted LIMIT WINDOW ip times s now Hfresh Hbefore) as Hrec.
  rewrite check_rate_limit_eval. cbv zeta. rewrite Hrec.
  destruct (_ >=? _) eqn:E.
  - by destruct (kept WINDOW now (fst (admitted_times LIMIT WINDOW ip times s))).
  - intros _.
    assert (~ LIMIT <= Z.of_nat
              (length (kept WINDOW now (fst (admitted_times LIMIT WINDOW ip times s)))))
      as Hroom.
    { rewrite <- Z.geb_le. by rewrite E. }
    rewrite kept_app, length_app.
    pose proof (kept_length WINDOW now [now]). simpl in *. lia.
Qed.

Lemma admitted_requests_per_window_witness :
  fst (admitted_times 2 60 "10.0.0.1" [0; 10; 20]%Q example_app) = [0; 10]%Q /\
  Z.of_nat
    (length (kept 60 70
               (fst (admitted_times 2 60 "10.0.0.1" [0; 10; 20]%Q example_app) ++ [70%Q])))
  <= 2.
Proof.
  split; [reflexivity|].
  apply (admitted_requests_per_window 2 60 "10.0.0.1" [0; 10; 20]%Q 70 example_app).
  - reflexivity.
  - intros t Ht. repeat (apply elem_of_cons in Ht as [->|Ht]; [by vm_compute|]).
    by apply elem_of_nil in Ht.
  - reflexivity.
Defined.

(** X8. The middleware in front of the handlers. A request for /health
    goes straight to its handler, with no check and no timestamp
    recorded, whatever the client has sent before. Any other request is
    checked under the client's address (unknown when there is none): over
    the limit it is answered 429 with a positive retry_after and the
    handler is not run, the state changing in the tracker only; under the
    limit the handler runs after the timestamp is recorded. The
    [limit_info] that is subscripted is never [None]. *)
Theorem rate_limit_middleware_gate {A : Type}
    (LIMIT WINDOW : Z) (now : Q) (client_host : option string) (path : string)
    (call_next : M App A) (s : App) :
  1 <= LIMIT ->
  let ip := default "unknown" client_host in
  let reqs := kept WINDOW now (timestamps ip s) in
  (path = "/health" ->
     rate_limit_middleware LIMIT WINDOW now client_host path call_next s =
       passed (call_next s)) /\
  (path <> "/health" -> LIMIT <= Z.of_nat (length reqs) ->
     exists retry,
       rate_limit_middleware LIMIT WINDOW now client_host path call_next s =
         (Return (TooManyRequests retry),
          with_tracker (<[ip := reqs]> (rate_limit_tracker s)) s) /\
       0 < retry) /\
  (path <> "/health" -> Z.of_nat (length reqs) < LIMIT ->
     rate_limit_middleware LIMIT WINDOW now client_host path call_next s =
       passed (call_next
                 (with_tracker (<[ip := reqs ++ [now]]> (rate_limit_tracker s)) s))) /\
  fst (rate_limit_middleware LIMIT WINDOW now client_host path call_next s)
    <> Return NoneNotSubscriptable.
Proof.
  intros HL ip reqs.
  assert (forall s0, (response <- call_next ;; ret (Passed response))%py s0
                     = passed (call_next s0)) as Hpass.
  { intros s0. unfold bind, ret, passed. by destruct (call_next s0) as [[?| |] ?]. }
  assert (forall s0, fst (passed (call_next s0)) <> Return NoneNotSubscriptable) as Hnever.
  { intros s0. unfold passed. by destruct (call_next s0) as [[?| |] ?]. }
  unfold rate_limit_middleware. fold ip.
  split; [|split; [|split]].
  - intros ->. rewrite bool_decide_eq_true_2 by done. apply Hpass.
  - intros Hpath Hfull. rewrite bool_decide_eq_false_2 by done.
    destruct reqs as [|oldest rest] eqn:Hk; [simpl in Hfull; lia|].
    unfold bind at 1. rewrite (check_rejects _ _ _ _ _ _ _ Hk Hfull).
    cbn [negb retry_after]. eexists. split; [reflexivity|].
    by destruct (retry_after_expires WINDOW now oldest rest _ Hk) as [Hpos _].
  - intros Hpath Hroom. rewrite bool_decide_eq_false_2 by done.
    unfold bind at 1. rewrite (check_admits _ _ _ _ _ Hroom).
    cbn [negb]. apply Hpass.
  - destruct (bool_decide (path = "/health")); [rewrite Hpass; apply Hnever|].
    unfold bind at 1. rewrite check_rate_limit_eval. cbv zeta. fold reqs.
    destruct (_ >=? _); [by destruct reqs|].
    cbn [negb]. rewrite Hpass. apply Hnever.
Qed.

Lemma rate_limit_middleware_gate_witness :
  rate_limit_middleware 1 60 30 (Some "10.0.0.1") "/health"
    (get_original_url "promo1") one_request_app
  = passed (get_original_url "promo1" one_request_app) /\
  exists retry,
    rate_limit_middleware 1 60 30 (Some "10.0.0.1") "/info/promo1"
      (get_original_url "promo1") one_request_app
    = (Return (TooManyRequests retry),
       with_tracker (<[ "10.0.0.1" := [0%Q] ]> (rate_limit_tracker one_request_app))
         one_request_app) /\
    0 < retry.
Proof.
  destruct (rate_limit_middleware_gate 1 60 30 (Some "10.0.0.1") "/health"
              (get_original_url "promo1") one_request_app) as (Hhealth & _); [lia|].
  destruct (rate_limit_middleware_gate 1 60 30 (Some "10.0.0.1") "/info/promo1"
              (get_original_url "promo1") one_request_app) as (_ & Hreject & _); [lia|].
  split; [by apply Hhealth|].
  apply Hreject; [done | by vm_compute].
Defined.

(** * Further properties of the handlers *)

Section TableFacts.

Implicit Types (s : App) (code k : string) (rows : list UrlRow.t).

Lemma row_of_code_elem code rows (row : UrlRow.t) :
  row_of_code code rows = Some row -> row ∈ rows /\ UrlRow.short_code row = code.
Proof.
  unfold row_of_code. intros [Hin Hb]%find_some.
  split; [by apply list_elem_of_In|]. by apply bool_decide_eq_true in Hb.
Qed.

Lemma row_of_code_None code rows :
  row_of_code code rows = None <-> code ∉ UrlRow.short_code <$> rows.
Proof.
  unfold row_of_code. induction rows as [|r rows IH].
  - simpl. split; [intros _; apply not_elem_of_nil | done].
  - cbn [List.find]. rewrite fmap_cons, not_elem_of_cons. case_bool_decide as Hc.
    + split; [done|]. intros [Hne _]. by destruct Hne.
    + rewrite IH. split; [intros ?; split; [congruence|done] | by intros [_ ?]].
Qed.

Lemma row_of_code_snoc_other code rows (row : UrlRow.t) :
  UrlRow.short_code row <> code ->
  row_of_code code (rows ++ [row]) = row_of_code code rows.
Proof.
  unfold row_of_code. intros Hne. induction rows as [|r rows IH]; simpl.
  - by rewrite bool_decide_eq_false_2.
  - by destruct (bool_decide (UrlRow.short_code r = code)).
Qed.

Lemma row_of_code_delete_eq code rows :
  row_of_code code
    (List.filter (fun r => negb (bool_decide (UrlRow.short_code r = code))) rows) = None.
Proof.
  unfold row_of_code. induction rows as [|r rows IH]; simpl; [done|].
  case_bool_decide as Hc; simpl; [done|]. by rewrite bool_decide_eq_false_2.
Qed.

Lemma row_of_code_delete_ne code k rows :
  k <> code ->
  row_of_code k
    (List.filter (fun r => negb (bool_decide (UrlRow.short_code r = code))) rows)
  = row_of_code k rows.
Proof.
  unfold row_of_code. intros Hne. induction rows as [|r rows IH]; simpl; [done|].
  case_bool_decide as Hc; simpl.
  - rewrite bool_decide_eq_false_2 by congruence. done.
  - by destruct (bool_decide (UrlRow.short_code r = k)).
Qed.

Lemma row_of_url_snoc url rows (row : UrlRow.t) :
  row_of_url url rows = None -> UrlRow.original_url row = url ->
  row_of_url url (rows ++ [row]) = Some row.
Proof.
  unfold row_of_url. intros Hnone Hurl. induction rows as [|r rows IH]; simpl in *.
  - by rewrite bool_decide_eq_true_2.
  - destruct (bool_decide (UrlRow.original_url r = url)); [done|]. by apply IH.
Qed.

Lemma row_of_url_elem url rows (row : UrlRow.t) :
  row_of_url url rows = Some row -> row ∈ rows /\ UrlRow.original_url row = url.
Proof.
  unfold row_of_url. intros [Hin Hb]%find_some.
  split; [by apply list_elem_of_In|]. by apply bool_decide_eq_true in Hb.
Qed.

Lemma taken_stored code s : taken code s = true <-> code ∈ stored_codes s.
Proof.
  unfold taken, stored_codes.
  destruct (row_of_code code (urls s)) as [row|] eqn:H.
  - split; [intros _|done]. apply row_of_code_elem in H as [Hin <-].
    apply list_elem_of_fmap. by exists row.
  - split; [done|]. intros Hin. by apply row_of_code_None in H.
Qed.

Lemma assoc_elem key (v : option string) (d : list (string * option string)) :
  LRUCache.assoc key d = Some v -> (key, v) ∈ d.
Proof.
  induction d as [|[k v'] d IH]; simpl; [done|].
  destruct (decide (k = key)) as [->|].
  - intros [= ->]. apply elem_of_cons. by left.
  - intros H. apply elem_of_cons. right. by apply IH.
Qed.

Lemma remove_key_elem key (kv : string * option string) (d : list (string * option string)) :
  kv ∈ LRUCache.remove_key key d <-> kv ∈ d /\ fst kv <> key.
Proof.
  unfold LRUCache.remove_key. rewrite !list_elem_of_In, filter_In, negb_true_iff.
  by rewrite bool_decide_eq_false.
Qed.

End TableFacts.

Section HandlerStates.

Implicit Types (s : App) (code k : string) (self : URLCache.t).

Lemma get_entries key self (kv : string * option string) :
  kv ∈ entries (snd (URLCache.get key self)) -> kv ∈ entries self.
Proof.
  destruct (LRUCache.assoc key (entries self)) as [v|] eqn:H.
  - rewrite (get_hit _ _ _ H). unfold entries at 1. simpl. unfold touch.
    rewrite elem_of_app, list_elem_of_singleton, remove_key_elem.
    intros [[? _]| ->]; [done|]. by apply assoc_elem.
  - by rewrite (get_miss _ _ H).
Qed.

Lemma set_entries key (v : option string) self (kv : string * option string) :
  kv ∈ entries (snd (URLCache.set key v self)) -> kv ∈ entries self \/ kv = (key, v).
Proof.
  destruct (Z_lt_le_dec (LRUCache.maxsize (URLCache.cache self)) 1) as [Hsmall|Hcap].
  - rewrite set_too_large by done. by left.
  - destruct (LRUCache.assoc key (entries self)) as [v0|] eqn:H.
    + rewrite (set_present _ _ _ _ Hcap H). unfold entries at 1. simpl. unfold touch.
      rewrite elem_of_app, list_elem_of_singleton, remove_key_elem.
      intros [[? _]| ->]; [by left | by right].
    + rewrite (set_absent _ _ _ Hcap H). unfold entries at 1. simpl.
      rewrite elem_of_app, list_elem_of_singleton.
      intros [Hin| ->]; [left | by right].
      eapply elem_of_sublist; [exact Hin | apply sublist_drop].
Qed.

Lemma set_keeps_capacity key (v : option string) self :
  LRUCache.maxsize (URLCache.cache (snd (URLCache.set key v self))) =
  LRUCache.maxsize (URLCache.cache self).
Proof.
  destruct (Z_lt_le_dec (LRUCache.maxsize (URLCache.cache self)) 1) as [Hsmall|Hcap].
  - by rewrite set_too_large.
  - destruct (set_lookup key v self Hcap) as (d0 & -> & _). done.
Qed.

Lemma get_keeps_capacity key self :
  LRUCache.maxsize (URLCache.cache (snd (URLCache.get key self))) =
  LRUCache.maxsize (URLCache.cache self).
Proof.
  destruct (LRUCache.assoc key (entries self)) as [v|] eqn:H.
  - by rewrite (get_hit _ _ _ H).
  - by rewrite (get_miss _ _ H).
Qed.

(** A lookup leaves the table alone and adds to the cache, at most, the
    entry that the table dictates for the code. *)
Lemma lookup_state_of code s r s' :
  get_original_url code s = (r, s') ->
  urls s' = urls s /\ clicks s' = clicks s /\ capacity s' = capacity s /\
  forall kv, kv ∈ entries (cache s') ->
             kv ∈ entries (cache s) \/ kv = (code, expected_entry code s).
Proof.
  unfold get_original_url, on_cache, fetch_by_code, execute, capacity, expected_entry.
  unfold_m.
  pose proof (get_entries code (cache s)) as Hget.
  pose proof (get_keeps_capacity code (cache s)) as Hcap.
  destruct (URLCache.get code (cache s)) as [[[cached_url|]| |] self1];
    simpl in Hget, Hcap; simpl.
  - intros [= <- <-]. simpl. repeat split; try done. intros kv Hkv. left. by apply Hget.
  - destruct (row_of_code code (urls s)) as [row|]; simpl.
    + pose proof (set_entries code (Some (UrlRow.original_url row)) self1) as Hset.
      pose proof (set_keeps_capacity code (Some (UrlRow.original_url row)) self1) as Hcap2.
      destruct (URLCache.set code (Some (UrlRow.original_url row)) self1)
        as [[[]| |] self2]; simpl in *; intros [= <- <-]; simpl;
        (repeat split; [congruence|]; intros kv Hkv;
         destruct (Hset kv Hkv) as [?|?]; [left; by apply Hget | by right]).
    + pose proof (set_entries code (Some NOT_FOUND) self1) as Hset.
      pose proof (set_keeps_capacity code (Some NOT_FOUND) self1) as Hcap2.
      destruct (URLCache.set code (Some NOT_FOUND) self1)
        as [[[]| |] self2]; simpl in *; intros [= <- <-]; simpl;
        (repeat split; [congruence|]; intros kv Hkv;
         destruct (Hset kv Hkv) as [?|?]; [left; by apply Hget | by right]).
  - intros [= <- <-]. simpl. repeat split; try done. intros kv Hkv. left. by apply Hget.
  - intros [= <- <-]. simpl. repeat split; try done. intros kv Hkv. left. by apply Hget.
Qed.

(** A lookup leaves the table alone and adds to the cache, at most, the
    entry that the table dictates for the code. *)
Lemma lookup_state code s :
  urls (snd (get_original_url code s)) = urls s /\
  clicks (snd (get_original_url code s)) = clicks s /\
  capacity (snd (get_original_url code s)) = capacity s /\
  forall kv, kv ∈ entries (cache (snd (get_original_url code s))) ->
             kv ∈ entries (cache s) \/ kv = (code, expected_entry code s).
Proof.
  destruct (get_original_url code s) as [r s'] eqn:H. by apply (lookup_state_of code s r).
Qed.

Lemma get_url_info_state BASE_URL code s :
  snd (get_url_info BASE_URL code s) = snd (get_original_url code s).
Proof.
  unfold get_url_info. unfold bind at 1.
  destruct (get_original_url code s) as [[original_url| |] s1]; [|done..].
  by destruct (truthy_opt original_url).
Qed.

Lemma generate_state fuel s :
  urls (snd (generate_short_code fuel s)) = urls s /\
  cache (snd (generate_short_code fuel s)) = cache s /\
  clicks (snd (generate_short_code fuel s)) = clicks s.
Proof.
  revert s. induction fuel as [|fuel IH]; intros s; [done|].
  rewrite generate_round. destruct (taken (candidate s 0) s); [|done].
  destruct (IH (after_rounds 1 s)) as (-> & -> & ->). done.
Qed.

Lemma candidate_truthy s j : truthy (candidate s j) = true.
Proof.
  pose proof (candidate_length s j) as Hlen.
  by destruct (candidate s j).
Qed.

Lemma insert_invalidate_eval code (row : UrlRow.t) s (A : Type) (k : M App A) :
  UrlRow.short_code row = code -> taken code s = false ->
  (insert_url_or_500 row ;; on_cache (URLCache.invalidate code) ;; k)%py s =
  k (with_cache (with_entries (LRUCache.remove_key code (entries (cache s))) (cache s))
       (with_urls (urls s ++ [row])
          (with_sql_log (sql_log s ++ [insert_urls code]) s))).
Proof.
  unfold taken. intros Hcode Hfree.
  destruct (row_of_code code (urls s)) eqn:Hrow; [done|].
  unfold insert_url_or_500, execute, on_cache. unfold_m. simpl.
  rewrite Hcode, Hrow. rewrite invalidate_remove. reflexivity.
Qed.

End HandlerStates.

Section ShortenCases.

Variable BASE_URL : string.
Implicit Types (s : App) (code : string) (request : URLRequest.t).

(** The four ways [shorten_url] can end: the URL is already stored; the
    custom code is taken; the generator is still looping; a row is
    inserted and the cache entry of its code removed. *)
Lemma shorten_url_cases fuel request s :
  let url := URLRequest.url request in
  let existing := UrlRow.short_code <$> row_of_url url (urls s) in
  let custom := URLRequest.custom_code request in
  let r := shorten_url BASE_URL fuel request s in
  (exists row,
     row_of_url url (urls s) = Some row /\ truthy (UrlRow.short_code row) = true /\
     r = (Return (mkURLResponse (UrlRow.short_code row)
                    (BASE_URL +:+ "/" +:+ UrlRow.short_code row)),
          with_sql_log (sql_log s ++ [select_urls_by_url url]) s)) \/
  (truthy_opt existing = false /\ truthy_opt custom = true /\
   taken (default "" custom) s = true /\
   fst r = Raise (HTTPException 409) /\
   urls (snd r) = urls s /\ cache (snd r) = cache s /\ clicks (snd r) = clicks s) \/
  (truthy_opt existing = false /\ truthy_opt custom = false /\
   fst r = Diverge /\
   urls (snd r) = urls s /\ cache (snd r) = cache s /\ clicks (snd r) = clicks s) \/
  (truthy_opt existing = false /\
   exists code is_custom,
     taken code s = false /\ truthy code = true /\
     (is_custom = true -> custom = Some code) /\
     (is_custom = false -> truthy_opt custom = false) /\
     fst r = Return (mkURLResponse code (BASE_URL +:+ "/" +:+ code)) /\
     urls (snd r) =
       urls s ++ [UrlRow.mk code url 0 is_custom (URLRequest.expires_at request)] /\
     cache (snd r) =
       with_entries (LRUCache.remove_key code (entries (cache s))) (cache s) /\
     clicks (snd r) = clicks s).
Proof.
  intros url existing custom r.
  assert (shorten_url BASE_URL fuel request s = r) as Hr by reflexivity.
  clearbody r. revert Hr. unfold shorten_url. unfold bind at 1.
  rewrite get_existing_code_eval. fold url existing.
  destruct (truthy_opt existing) eqn:Hex.
  - intros <-. left. unfold existing in *.
    destruct (row_of_url url (urls s)) as [row|]; [|done].
    exists row. done.
  - set (s1 := with_sql_log _ s). fold custom.
    destruct (truthy_opt custom) eqn:Hcustom.
    + unfold bind at 1. unfold bind at 1. rewrite code_exists_eval.
      change (taken (default "" custom) s1) with (taken (default "" custom) s).
      destruct (taken (default "" custom) s) eqn:Htaken.
      * intros <-. right. left. done.
      * unfold ret at 1. cbv beta iota.
        rewrite insert_invalidate_eval by done.
        intros <-. right. right. right. split; [done|].
        exists (default "" custom), true.
        split; [done|]. split; [by destruct custom|]. split; [by destruct custom|].
        split; [done|]. done.
    + unfold bind at 1. unfold bind at 1.
      pose proof (generate_state fuel s1) as (Hurls & Hcache & Hclicks).
      pose proof (generate_never_raises fuel s1) as Hnever.
      destruct (generate_short_code fuel s1) as [[code|e|] s2] eqn:Hgen.
      * apply generate_returned in Hgen as (n & _ & [_ Hfree] & -> & ->).
        unfold ret at 1. cbv beta iota.
        rewrite insert_invalidate_eval by done.
        intros <-. right. right. right. split; [done|].
        exists (candidate s1 n), false.
        split; [done|]. split; [apply candidate_truthy|]. split; [done|]. done.
      * by destruct (Hnever e).
      * intros <-. right. right. left. simpl in *. done.
Qed.

End ShortenCases.

Section OtherHandlers.

Implicit Types (s : App) (code k : string).

Lemma row_of_code_count_click code k (rows : list UrlRow.t) :
  UrlRow.original_url <$> row_of_code k (count_click code rows) =
  UrlRow.original_url <$> row_of_code k rows.
Proof.
  unfold row_of_code, count_click. induction rows as [|r rows IH]; simpl; [done|].
  destruct (bool_decide (UrlRow.short_code r = code)); simpl;
    by destruct (bool_decide (UrlRow.short_code r = k)).
Qed.

Lemma stored_codes_count_click code (rows : list UrlRow.t) :
  UrlRow.short_code <$> count_click code rows = UrlRow.short_code <$> rows.
Proof.
  unfold count_click. induction rows as [|r rows IH]; [done|].
  cbn [map]. rewrite !fmap_cons, IH.
  by destruct (bool_decide (UrlRow.short_code r = code)).
Qed.

(** [redirect_url] as a function of the row it finds. *)
Lemma redirect_url_eval (expired_now : string -> outcome bool) code
    (request : Request) s :
  redirect_url expired_now code request s =
  let s1 := with_sql_log (sql_log s ++ [select_urls_by_code code]) s in
  match row_of_code code (urls s) with
  | None => (Raise (HTTPException 404), s1)
  | Some row =>
      let clicked :=
        (Return (mkRedirect (UrlRow.original_url row) 307),
         with_urls (count_click code (urls s))
           (with_sql_log
              (sql_log s ++ [select_urls_by_code code; insert_clicks code;
                             update_urls_click code])
              (with_clicks
                 (clicks s ++ [ClickRow.mk code (header_user_agent request)
                                 (client_host request) (header_referer request)]) s))) in
      match UrlRow.expires_at row with
      | Some e =>
          if truthy e then
            match expired_now e with
            | Return true => (Raise (HTTPException 410), s1)
            | Return false => clicked
            | Raise x => (Raise x, s1)
            | Diverge => (Diverge, s1)
            end
          else clicked
      | None => clicked
      end
  end.
Proof.
  unfold redirect_url, is_expired, record_click, fetch_by_code, execute, count_click.
  unfold_m. simpl.
  destruct (row_of_code code (urls s)) as [row|]; [|done].
  destruct (UrlRow.expires_at row) as [e|]; simpl.
  - destruct (truthy e); simpl.
    + destruct (expired_now e) as [[|]| |]; simpl; try done.
      by rewrite <- !app_assoc.
    + by rewrite <- !app_assoc.
  - by rewrite <- !app_assoc.
Qed.

(** [delete_url] as a function of the row it finds. *)
Lemma delete_url_eval code s :
  delete_url code s =
  match row_of_code code (urls s) with
  | None =>
      (Raise (HTTPException 404),
       with_sql_log (sql_log s ++ [select_urls_by_code code]) s)
  | Some _ =>
      (Return ("Successfully deleted short code '" +:+ code +:+ "'"),
       with_cache
         (with_entries (LRUCache.remove_key code (entries (cache s))) (cache s))
         (with_urls
            (List.filter (fun r => negb (bool_decide (UrlRow.short_code r = code)))
               (urls s))
            (with_sql_log
               (sql_log s ++ [select_urls_by_code code; delete_clicks code;
                              delete_urls code])
               (with_clicks
                  (List.filter
                     (fun c => negb (bool_decide (ClickRow.short_code c = code)))
                     (clicks s)) s))))
  end.
Proof.
  unfold delete_url, fetch_by_code, execute, on_cache. unfold_m. simpl.
  destruct (row_of_code code (urls s)) as [row|]; [|done].
  rewrite invalidate_remove. simpl. by rewrite <- !app_assoc.
Qed.

End OtherHandlers.

Section ShortenFacts.

Variable BASE_URL : string.
Implicit Types (s : App) (code : string) (request : URLRequest.t).

(** A URL that is stored under a code is answered with that code. *)
Lemma shorten_url_existing fuel request s (row : UrlRow.t) :
  row_of_url (URLRequest.url request) (urls s) = Some row ->
  truthy (UrlRow.short_code row) = true ->
  shorten_url BASE_URL fuel request s =
  (Return (mkURLResponse (UrlRow.short_code row)
             (BASE_URL +:+ "/" +:+ UrlRow.short_code row)),
   with_sql_log (sql_log s ++ [select_urls_by_url (URLRequest.url request)]) s).
Proof.
  intros Hrow Htruthy.
  destruct (shorten_url_cases BASE_URL fuel request s)
    as [(row' & Hrow' & _ & Hr)|[(Hex & _)|[(Hex & _)|(Hex & _)]]];
    rewrite Hrow in *; simpl in *; congruence.
Qed.

Lemma list_filter_sublist {A : Type} (f : A -> bool) (l : list A) :
  List.filter f l `sublist_of` l.
Proof.
  induction l as [|x l IH]; simpl; [done|].
  destruct (f x); [by apply sublist_skip | by apply sublist_cons].
Qed.

End ShortenFacts.

Section LaterRequests.

Variable BASE_URL : string.
Variable expired_now : string -> outcome bool.
Implicit Types (s : App) (code k url : string) (rows : list UrlRow.t).

Lemma row_of_url_app url rows rows' (row : UrlRow.t) :
  row_of_url url rows = Some row -> row_of_url url (rows ++ rows') = Some row.
Proof.
  unfold row_of_url. induction rows as [|r rows IH]; simpl; [done|].
  by destruct (bool_decide (UrlRow.original_url r = url)).
Qed.

Lemma row_of_url_count_click url k rows :
  UrlRow.short_code <$> row_of_url url (count_click k rows) =
  UrlRow.short_code <$> row_of_url url rows.
Proof.
  unfold row_of_url, count_click. induction rows as [|r rows IH]; simpl; [done|].
  destruct (bool_decide (UrlRow.short_code r = k)); simpl;
    by destruct (bool_decide (UrlRow.original_url r = url)).
Qed.

(** The first row of a URL stays the first when the rows of another
    code are deleted. *)
Lemma row_of_url_delete url k rows (row : UrlRow.t) :
  row_of_url url rows = Some row -> UrlRow.short_code row <> k ->
  row_of_url url
    (List.filter (fun r => negb (bool_decide (UrlRow.short_code r = k))) rows)
  = Some row.
Proof.
  unfold row_of_url. intros Hrow Hne.
  induction rows as [|r rows IH]; simpl in *; [done|].
  destruct (bool_decide (UrlRow.original_url r = url)) eqn:Hu.
  - injection Hrow as Hr. subst r.
    rewrite bool_decide_eq_false_2 by done. simpl. by rewrite Hu.
  - destruct (bool_decide (UrlRow.short_code r = k)); simpl; [by apply IH|].
    rewrite Hu. by apply IH.
Qed.

(** A request other than the deletion of [code] leaves a URL that is
    stored under [code] stored under it. *)
Lemma handle_keeps_code (c : api_call) s url code :
  c <> CallDelete code ->
  UrlRow.short_code <$> row_of_url url (urls s) = Some code ->
  UrlRow.short_code <$> row_of_url url (urls (handle BASE_URL expired_now c s))
  = Some code.
Proof.
  intros Hc Hcode.
  destruct c as [fuel request|k request|k|k|timestamp]; cbn [handle].
  - destruct (shorten_url_cases BASE_URL fuel request s)
      as [(row & _ & _ & ->)|[(_ & _ & _ & _ & Hu & _)|[(_ & _ & _ & Hu & _)|
          (_ & code' & is_custom & _ & _ & _ & _ & _ & Hu & _)]]];
      [done | by rewrite Hu | by rewrite Hu |].
    rewrite Hu. destruct (row_of_url url (urls s)) as [row|] eqn:Hrow; [|done].
    by rewrite (row_of_url_app _ _ _ row Hrow).
  - rewrite redirect_url_eval. cbv zeta.
    assert (UrlRow.short_code <$> row_of_url url (count_click k (urls s)) = Some code)
      as Hclicked by by rewrite row_of_url_count_click.
    destruct (row_of_code k (urls s)) as [row|]; [|done].
    destruct (UrlRow.expires_at row) as [e|]; [|done].
    destruct (truthy e); [|done]. by destruct (expired_now e) as [[|]| |].
  - rewrite get_url_info_state. destruct (lookup_state k s) as (-> & _). done.
  - rewrite delete_url_eval.
    destruct (row_of_code k (urls s)) as [found|]; [|done]. simpl.
    destruct (row_of_url url (urls s)) as [row|] eqn:Hrow; [|done].
    simpl in Hcode. injection Hcode as Hcode.
    rewrite (row_of_url_delete url k (urls s) row Hrow); [by rewrite <- Hcode|].
    intros Hk. apply Hc. congruence.
  - done.
Qed.

Lemma handle_all_keeps_code (calls : list api_call) s url code :
  CallDelete code ∉ calls ->
  UrlRow.short_code <$> row_of_url url (urls s) = Some code ->
  UrlRow.short_code <$>
    row_of_url url (urls (handle_all BASE_URL expired_now calls s))
  = Some code.
Proof.
  revert s. induction calls as [|c calls IH]; intros s Hcalls Hcode; [done|].
  apply not_elem_of_cons in Hcalls as [Hc Hcalls]. cbn [handle_all].
  apply IH; [done|]. apply handle_keeps_code; [congruence | done].
Qed.

End LaterRequests.

(** X9. Shortening is idempotent in the URL for as long as the answered
    code is not deleted. On a table without an empty code, once
    [shorten_url] has answered a request, a later request for the same
    URL gets the same answer, whatever custom code or expiry it carries,
    and changes neither the table, the clicks nor the cache; this holds
    directly afterwards and after any sequence of shorten, redirect,
    info, delete and cache-clear requests in between, provided none of
    them is the deletion of the answered code. *)
Theorem shorten_url_same_url_same_code
    (BASE_URL : string) (expired_now : string -> outcome bool)
    (fuel fuel' : nat) (request request' : URLRequest.t)
    (calls : list api_call) (s s' : App) (response : URLResponse) :
  "" ∉ stored_codes s ->
  shorten_url BASE_URL fuel request s = (Return response, s') ->
  URLRequest.url request' = URLRequest.url request ->
  CallDelete (short_code response) ∉ calls ->
  exists s'',
    shorten_url BASE_URL fuel' request'
      (handle_all BASE_URL expired_now calls s') = (Return response, s'') /\
    urls s'' = urls (handle_all BASE_URL expired_now calls s') /\
    clicks s'' = clicks (handle_all BASE_URL expired_now calls s') /\
    cache s'' = cache (handle_all BASE_URL expired_now calls s').
Proof.
  intros Hnonempty Hfirst Hurl Hcalls.
  assert (exists row, row_of_url (URLRequest.url request') (urls s') = Some row /\
                      truthy (UrlRow.short_code row) = true /\
                      response = mkURLResponse (UrlRow.short_code row)
                                   (BASE_URL +:+ "/" +:+ UrlRow.short_code row))
    as (row & Hrow & Htruthy & ->).
  { rewrite Hurl.
    destruct (shorten_url_cases BASE_URL fuel request s)
      as [(row & Hrow & Htruthy & Hr)|[(_ & _ & _ & Hr & _)|[(_ & _ & Hr & _)|
          (Hex & code & is_custom & Hfree & Htruthy & _ & _ & Hr & Hu & _)]]];
      rewrite Hfirst in *; simpl in *; try done.
    - injection Hr as -> ->. by exists row.
    - injection Hr as ->.
      exists (UrlRow.mk code (URLRequest.url request) 0 is_custom
                (URLRequest.expires_at request)).
      split; [|done].
      rewrite Hu. apply row_of_url_snoc; [|done].
      destruct (row_of_url (URLRequest.url request) (urls s)) as [old|] eqn:Hold; [|done].
      exfalso. apply Hnonempty. apply row_of_url_elem in Hold as [Hin _].
      simpl in Hex. destruct (UrlRow.short_code old) eqn:Hcode; [|done].
      unfold stored_codes. rewrite <- Hcode. apply list_elem_of_fmap. by exists old. }
  cbn [short_code] in Hcalls.
  pose proof (handle_all_keeps_code BASE_URL expired_now calls s'
                (URLRequest.url request') (UrlRow.short_code row) Hcalls) as Hlater.
  rewrite Hrow in Hlater. specialize (Hlater eq_refl).
  destruct (row_of_url (URLRequest.url request')
              (urls (handle_all BASE_URL expired_now calls s')))
    as [row'|] eqn:Hrow'; [|done].
  simpl in Hlater. injection Hlater as Hsame. rewrite <- Hsame in Htruthy |- *.
  rewrite (shorten_url_existing BASE_URL fuel' request' _ row' Hrow' Htruthy).
  eexists. done.
Qed.

Lemma shorten_url_same_url_same_code_witness :
  exists s' s'',
    shorten_url "http://localhost:8000" 0 ghost_request example_app =
      (Return (mkURLResponse "ghost" "http://localhost:8000/ghost"), s') /\
    shorten_url "http://localhost:8000" 5
      (URLRequest.mk "https://example.com/ghost" (Some "other") None)
      (handle_all "http://localhost:8000" never_expired later_calls s') =
      (Return (mkURLResponse "ghost" "http://localhost:8000/ghost"), s'') /\
    urls s'' = urls (handle_all "http://localhost:8000" never_expired later_calls s').
Proof.
  set (s' := snd (shorten_url "http://localhost:8000" 0 ghost_request example_app)).
  destruct (shorten_url_same_url_same_code "http://localhost:8000" never_expired 0 5
              ghost_request
              (URLRequest.mk "https://example.com/ghost" (Some "other") None)
              later_calls example_app s'
              (mkURLResponse "ghost" "http://localhost:8000/ghost"))
    as (s'' & Hsecond & Hurls & _).
  - apply (bool_decide_unpack _). by vm_compute.
  - reflexivity.
  - reflexivity.
  - intros Hin. unfold later_calls in Hin.
    repeat (apply elem_of_cons in Hin as [Hin|Hin]; [discriminate Hin|]).
    by apply elem_of_nil in Hin.
  - exists s', s''. split; [reflexivity|]. split; [exact Hsecond | exact Hurls].
Defined.

(** X10. The only exception that [shorten_url] raises is the 409 of a
    taken custom code, never the 500 of a failed INSERT: it is raised
    exactly when the URL is new, a custom code is given and the table
    holds that code, and then the table, the clicks and the cache are as
    before. *)
Theorem shorten_url_raises_only_conflict
    (BASE_URL : string) (fuel : nat) (request : URLRequest.t) (s : App) :
  let existing :=
    UrlRow.short_code <$> row_of_url (URLRequest.url request) (urls s) in
  let custom := URLRequest.custom_code request in
  let r := shorten_url BASE_URL fuel request s in
  (forall e, fst r = Raise e <->
     e = HTTPException 409 /\ truthy_opt existing = false /\
     truthy_opt custom = true /\ taken (default "" custom) s = true) /\
  (forall e, fst r = Raise e ->
     urls (snd r) = urls s /\ clicks (snd r) = clicks s /\ cache (snd r) = cache s).
Proof.
  intros existing custom r.
  destruct (shorten_url_cases BASE_URL fuel request s)
    as [(row & Hrow & Htruthy & Hr)|[(Hex & Hc & Ht & Hr & Hu & Hca & Hcl)|
        [(Hex & Hc & Hr & _)|(Hex & code & is_custom & Hfree & Htr & Hcu & Hge & Hr & _)]]];
    fold existing custom r in Hr |- *.
  - rewrite Hr. simpl. split; [|done]. intros e. split; [done|].
    intros (_ & Hex & _). unfold existing in Hex. rewrite Hrow in Hex. simpl in Hex.
    congruence.
  - fold existing in Hex. fold custom in Hc, Ht. fold r in Hu, Hca, Hcl.
    rewrite Hr. split; [|done].
    intros e. split; [by intros [= <-] | by intros (-> & _)].
  - fold custom in Hc. rewrite Hr. split; [|done].
    intros e. split; [done|]. intros (_ & _ & Hc' & _). congruence.
  - rewrite Hr. split; [|done]. intros e. split; [done|].
    intros (_ & _ & Hc' & Ht'). exfalso. fold custom in Hcu, Hge.
    destruct is_custom.
    + rewrite (Hcu eq_refl) in Ht'. simpl in Ht'. congruence.
    + rewrite (Hge eq_refl) in Hc'. done.
Qed.

Section HandlerSteps.

Variable BASE_URL : string.
Variable expired_now : string -> outcome bool.
Implicit Types (s : App) (code k : string) (c : api_call).

(** What one handler call does to the table and to the cache. *)
Lemma handle_step c s :
  let s' := handle BASE_URL expired_now c s in
  capacity s' = capacity s /\
  ((exists code,
      (urls s' = urls s \/ urls s' = count_click code (urls s)) /\
      forall kv, kv ∈ entries (cache s') ->
                 kv ∈ entries (cache s) \/ kv = (code, expected_entry code s)) \/
   (exists row,
      taken (UrlRow.short_code row) s = false /\
      truthy (UrlRow.short_code row) = true /\
      urls s' = urls s ++ [row] /\
      entries (cache s') =
        LRUCache.remove_key (UrlRow.short_code row) (entries (cache s))) \/
   (exists code,
      urls s' =
        List.filter (fun r => negb (bool_decide (UrlRow.short_code r = code))) (urls s) /\
      entries (cache s') = LRUCache.remove_key code (entries (cache s)))).
Proof.
  destruct c as [fuel request|code request|code|code|timestamp]; cbn [handle]; cbv zeta.
  - destruct (shorten_url_cases BASE_URL fuel request s)
      as [(row & _ & _ & ->)|[(_ & _ & _ & _ & Hu & Hc & _)|[(_ & _ & _ & Hu & Hc & _)|
          (_ & code & is_custom & Hfree & Htr & _ & _ & _ & Hu & Hc & _)]]].
    + split; [done|]. left. exists "". split; [by left|]. intros kv Hkv. by left.
    + unfold capacity. rewrite Hc. split; [done|]. left. exists "".
      split; [by left|]. intros kv Hkv. by left.
    + unfold capacity. rewrite Hc. split; [done|]. left. exists "".
      split; [by left|]. intros kv Hkv. by left.
    + unfold capacity. rewrite Hc. split; [done|]. right. left.
      eexists. split; [|split; [|split; [exact Hu|]]]; done.
  - rewrite redirect_url_eval. cbv zeta.
    split.
    + destruct (row_of_code code (urls s)) as [row|]; [|done].
      destruct (UrlRow.expires_at row) as [e|]; [|done].
      destruct (truthy e); [|done]. by destruct (expired_now e) as [[|]| |].
    + left. exists code. split.
      * destruct (row_of_code code (urls s)) as [row|]; [|by left].
        destruct (UrlRow.expires_at row) as [e|]; [|by right].
        destruct (truthy e); [|by right].
        destruct (expired_now e) as [[|]| |]; first [by left | by right].
      * intros kv Hkv. left.
        destruct (row_of_code code (urls s)) as [row|]; [|done].
        destruct (UrlRow.expires_at row) as [e|]; [|done].
        destruct (truthy e); [|done]. by destruct (expired_now e) as [[|]| |].
  - rewrite get_url_info_state.
    destruct (lookup_state code s) as (Hu & _ & Hcap & Hentries).
    split; [done|]. left. exists code. split; [by left | done].
  - rewrite delete_url_eval.
    destruct (row_of_code code (urls s)) as [row|].
    + split; [done|]. right. right. by exists code.
    + split; [done|]. left. exists code. split; [by left|]. intros kv Hkv. by left.
  - split; [done|]. left. exists "". split; [by left|].
    intros kv Hkv. simpl in Hkv. by apply elem_of_nil in Hkv.
Qed.

Lemma expected_entry_count_click k code s s' :
  urls s' = urls s \/ urls s' = count_click code (urls s) ->
  expected_entry k s' = expected_entry k s.
Proof.
  unfold expected_entry. intros [->| ->]; [done|]. by rewrite row_of_code_count_click.
Qed.

Lemma handle_coherent c s :
  coherent s -> coherent (handle BASE_URL expired_now c s).
Proof.
  intros Hco. destruct (handle_step c s) as
    [_ [(code & Hu & Hentries)|[(row & Hfree & _ & Hu & Hentries)|(code & Hu & Hentries)]]].
  - intros k v Hkv. rewrite (expected_entry_count_click k code s _ Hu).
    destruct (Hentries _ Hkv) as [Hold|[= -> ->]]; [by apply Hco | done].
  - intros k v Hkv. rewrite Hentries in Hkv. apply remove_key_elem in Hkv as [Hold Hne].
    simpl in Hne. unfold expected_entry. rewrite Hu.
    rewrite row_of_code_snoc_other by congruence. by apply Hco.
  - intros k v Hkv. rewrite Hentries in Hkv. apply remove_key_elem in Hkv as [Hold Hne].
    simpl in Hne. unfold expected_entry. rewrite Hu.
    rewrite row_of_code_delete_ne by done. by apply Hco.
Qed.

Lemma handle_codes c s :
  NoDup (stored_codes s) -> "" ∉ stored_codes s ->
  NoDup (stored_codes (handle BASE_URL expired_now c s)) /\
  "" ∉ stored_codes (handle BASE_URL expired_now c s).
Proof.
  intros Hnd Hne. unfold stored_codes in *. destruct (handle_step c s) as
    [_ [(code & [Hu|Hu] & _)|[(row & Hfree & Htr & Hu & _)|(code & Hu & _)]]];
    rewrite Hu.
  - done.
  - by rewrite stored_codes_count_click.
  - rewrite fmap_app. simpl.
    assert (UrlRow.short_code row ∉ UrlRow.short_code <$> urls s) as Hnew.
    { intros Hin. apply taken_stored in Hin. congruence. }
    split.
    + apply NoDup_app. split; [done|]. split; [|apply NoDup_singleton].
      intros x Hx ->%list_elem_of_singleton. done.
    + rewrite elem_of_app, list_elem_of_singleton. intros [?|Heq]; [done|].
      rewrite <- Heq in Htr. done.
  - assert ((UrlRow.short_code <$>
               List.filter (fun r => negb (bool_decide (UrlRow.short_code r = code)))
                 (urls s)) `sublist_of` (UrlRow.short_code <$> urls s)) as Hsub
      by apply fmap_sublist, list_filter_sublist.
    split; [by eapply sublist_NoDup|].
    intros Hin. apply Hne. by eapply elem_of_sublist.
Qed.

End HandlerSteps.

(** X11. The handlers keep the short codes of the table distinct and
    non-empty: from a table with that property, any sequence of shorten,
    redirect, info, delete and cache-clear requests leads to a table
    with it, whatever each request answers. *)
Theorem handlers_keep_codes_unique
    (BASE_URL : string) (expired_now : string -> outcome bool)
    (calls : list api_call) (s : App) :
  NoDup (stored_codes s) -> "" ∉ stored_codes s ->
  NoDup (stored_codes (handle_all BASE_URL expired_now calls s)) /\
  "" ∉ stored_codes (handle_all BASE_URL expired_now calls s).
Proof.
  revert s. induction calls as [|c calls IH]; intros s Hnd Hne; [done|].
  destruct (handle_codes BASE_URL expired_now c s Hnd Hne) as [Hnd' Hne'].
  by apply IH.
Qed.

(** X15. The handlers keep the cache in step with the table: when every
    cache entry is the URL stored for its code, or the marker where no
    row is stored, the same holds after any sequence of shorten,
    redirect, info, delete and cache-clear requests, and the capacity of
    the cache is as before. *)
Theorem handlers_keep_cache_coherent
    (BASE_URL : string) (expired_now : string -> outcome bool)
    (calls : list api_call) (s : App) :
  coherent s ->
  coherent (handle_all BASE_URL expired_now calls s) /\
  capacity (handle_all BASE_URL expired_now calls s) = capacity s.
Proof.
  revert s. induction calls as [|c calls IH]; intros s Hco; [done|].
  cbn [handle_all].
  destruct (IH (handle BASE_URL expired_now c s)) as [Hco' Hcap'];
    [by apply handle_coherent|].
  split; [done|]. rewrite Hcap'. by destruct (handle_step BASE_URL expired_now c s) as [-> _].
Qed.

Lemma handlers_keep_codes_unique_witness :
  stored_codes (handle_all "http://localhost:8000" never_expired
                  [CallShorten 0 ghost_request] example_app) = ["promo1"; "ghost"] /\
  NoDup (stored_codes (handle_all "http://localhost:8000" never_expired
                         example_calls example_app)) /\
  "" ∉ stored_codes (handle_all "http://localhost:8000" never_expired
                       example_calls example_app).
Proof.
  split; [reflexivity|].
  apply (handlers_keep_codes_unique "http://localhost:8000" never_expired
           example_calls example_app).
  - apply (bool_decide_unpack _). by vm_compute.
  - apply (bool_decide_unpack _). by vm_compute.
Defined.

Lemma handlers_keep_cache_coherent_witness :
  coherent (handle_all "http://localhost:8000" never_expired example_calls example_app) /\
  capacity (handle_all "http://localhost:8000" never_expired example_calls example_app) = 2.
Proof.
  apply (handlers_keep_cache_coherent "http://localhost:8000" never_expired
           example_calls example_app).
  intros code v Hin. simpl in Hin. by apply elem_of_nil in Hin.
Defined.

(** In step with the table, a lookup answers what the table holds. *)
Lemma coherent_lookup (s : App) (code : string) :
  coherent s -> no_marker_url s -> 1 <= capacity s ->
  fst (get_original_url code s) =
    Return (UrlRow.original_url <$> row_of_code code (urls s)).
Proof.
  intros Hco Hnm Hcap.
  destruct (cached code s) as [[cached_url|]|] eqn:Hc.
  - destruct (lookup_hit code s cached_url Hc) as (s' & -> & _).
    cbn [fst]. f_equal.
    pose proof (Hco code (Some cached_url) (assoc_elem _ _ _ Hc)) as Hexp.
    unfold expected_entry in Hexp. injection Hexp as ->. clear Hc.
    destruct (row_of_code code (urls s)) as [row|] eqn:Hrow;
      cbn [fmap option_fmap option_map default].
    + apply row_of_code_elem in Hrow as [Hin _].
      case_bool_decide as Hd; [done|]. exfalso. exact (Hnm row Hin Hd).
    + case_bool_decide as Hd; [|done]. exfalso. by apply Hd.
  - pose proof (Hco code None (assoc_elem _ _ _ Hc)) as Hexp. done.
  - by destruct (lookup_miss code s Hcap Hc) as (s' & -> & _).
Qed.

(** X16. With the cache in step with the table, no stored URL equal to
    the marker text and a capacity of at least one, [get_original_url]
    answers exactly what the table holds: the URL of the row of the code,
    or [None] when there is no row, whether the answer comes from the
    cache or from the database; it leaves the table alone and the cache
    in step. *)
Theorem coherent_lookup_agrees_with_table (s : App) (code : string) :
  coherent s -> no_marker_url s -> 1 <= capacity s ->
  exists s',
    get_original_url code s =
      (Return (UrlRow.original_url <$> row_of_code code (urls s)), s') /\
    urls s' = urls s /\ coherent s'.
Proof.
  intros Hco Hnm Hcap.
  pose proof (coherent_lookup s code Hco Hnm Hcap) as Hanswer.
  destruct (get_original_url code s) as [r s'] eqn:Hrun. simpl in Hanswer. subst r.
  exists s'. split; [done|].
  destruct (lookup_state_of code s _ s' Hrun) as (Hu & _ & _ & Hentries).
  split; [done|]. intros k v Hkv.
  assert (expected_entry k s' = expected_entry k s) as ->
    by (unfold expected_entry; by rewrite Hu).
  destruct (Hentries _ Hkv) as [Hold|[= -> ->]]; [by apply Hco | done].
Qed.

Lemma coherent_lookup_agrees_with_table_witness :
  exists s',
    get_original_url "promo1" example_app = (Return (Some "https://example.com/sale"), s') /\
    urls s' = urls example_app /\ coherent s'.
Proof.
  apply (coherent_lookup_agrees_with_table example_app "promo1").
  - intros code v Hin. simpl in Hin. by apply elem_of_nil in Hin.
  - intros row Hin. simpl in Hin. apply list_elem_of_singleton in Hin. by subst row.
  - by vm_compute.
Defined.

(** X17. Under the same conditions [get_url_info] answers from the table:
    the stored URL with the short URL built from the base URL when the
    code has a row with a non-empty URL, and 404 otherwise. *)
Theorem get_url_info_agrees_with_table (BASE_URL : string) (s : App) (code : string) :
  coherent s -> no_marker_url s -> 1 <= capacity s ->
  fst (get_url_info BASE_URL code s) =
  match row_of_code code (urls s) with
  | Some row =>
      if truthy (UrlRow.original_url row)
      then Return (mkURLInfo code (UrlRow.original_url row) (BASE_URL +:+ "/" +:+ code))
      else Raise (HTTPException 404)
  | None => Raise (HTTPException 404)
  end.
Proof.
  intros Hco Hnm Hcap.
  pose proof (coherent_lookup s code Hco Hnm Hcap) as Hanswer.
  unfold get_url_info. unfold bind at 1.
  destruct (get_original_url code s) as [r s'] eqn:Hrun. simpl in Hanswer. subst r.
  destruct (row_of_code code (urls s)) as [row|]; simpl; [|done].
  by destruct (truthy (UrlRow.original_url row)).
Qed.

Lemma get_url_info_agrees_with_table_witness :
  fst (get_url_info "http://localhost:8000" "promo1" example_app) =
    Return (mkURLInfo "promo1" "https://example.com/sale" "http://localhost:8000/promo1") /\
  fst (get_url_info "http://localhost:8000" "ghost" example_app) = Raise (HTTPException 404).
Proof.
  split.
  - apply (get_url_info_agrees_with_table "http://localhost:8000" example_app "promo1").
    + intros code v Hin. simpl in Hin. by apply elem_of_nil in Hin.
    + intros row Hin. simpl in Hin. apply list_elem_of_singleton in Hin. by subst row.
    + by vm_compute.
  - apply (get_url_info_agrees_with_table "http://localhost:8000" example_app "ghost").
    + intros code v Hin. simpl in Hin. by apply elem_of_nil in Hin.
    + intros row Hin. simpl in Hin. apply list_elem_of_singleton in Hin. by subst row.
    + by vm_compute.
Defined.

Section ClickFacts.

Lemma row_of_code_count_click_eq code (rows : list UrlRow.t) :
  row_of_code code (count_click code rows) =
  (fun r => UrlRow.mk (UrlRow.short_code r) (UrlRow.original_url r)
              (UrlRow.click_count r + 1) (UrlRow.is_custom r) (UrlRow.expires_at r))
    <$> row_of_code code rows.
Proof.
  unfold row_of_code, count_click. induction rows as [|r rows IH]; simpl; [done|].
  destruct (bool_decide (UrlRow.short_code r = code)) eqn:Hc; simpl; rewrite Hc; [done|].
  apply IH.
Qed.

Lemma row_of_code_count_click_ne code k (rows : list UrlRow.t) :
  k <> code -> row_of_code k (count_click code rows) = row_of_code k rows.
Proof.
  unfold row_of_code, count_click. intros Hne. induction rows as [|r rows IH]; simpl; [done|].
  destruct (bool_decide (UrlRow.short_code r = code)) eqn:Hc; simpl.
  - apply bool_decide_eq_true in Hc.
    rewrite bool_decide_eq_false_2 by congruence. apply IH.
  - by destruct (bool_decide (UrlRow.short_code r = k)).
Qed.

End ClickFacts.

(** X12. [redirect_url] answers 404 for a code without a row and 410 for
    an expired link, and in both cases records no click. For a link
    without expiry, or not yet expired, it answers a 307 redirect to the
    stored URL, adds one to the click count of that code and of no other,
    and appends one click row with the user agent, address and referrer of
    the request. *)
Theorem redirect_url_counts_click
    (expired_now : string -> outcome bool) (code : string) (request : Request)
    (s : App) :
  let r := redirect_url expired_now code request s in
  (row_of_code code (urls s) = None ->
     fst r = Raise (HTTPException 404) /\
     urls (snd r) = urls s /\ clicks (snd r) = clicks s) /\
  (forall row e,
     row_of_code code (urls s) = Some row ->
     UrlRow.expires_at row = Some e -> truthy e = true ->
     expired_now e = Return true ->
     fst r = Raise (HTTPException 410) /\
     urls (snd r) = urls s /\ clicks (snd r) = clicks s) /\
  (forall row,
     row_of_code code (urls s) = Some row ->
     match UrlRow.expires_at row with
     | Some e => truthy e = false \/ expired_now e = Return false
     | None => True
     end ->
     fst r = Return (mkRedirect (UrlRow.original_url row) 307) /\
     row_of_code code (urls (snd r)) =
       Some (UrlRow.mk (UrlRow.short_code row) (UrlRow.original_url row)
               (UrlRow.click_count row + 1) (UrlRow.is_custom row)
               (UrlRow.expires_at row)) /\
     (forall k, k <> code -> row_of_code k (urls (snd r)) = row_of_code k (urls s)) /\
     clicks (snd r) =
       clicks s ++ [ClickRow.mk code (header_user_agent request) (client_host request)
                      (header_referer request)]).
Proof.
  intros r. unfold r. rewrite redirect_url_eval. cbv zeta.
  split; [|split].
  - by intros ->.
  - intros row e -> -> -> ->. done.
  - intros row Hrow Hlive. rewrite Hrow.
    match goal with |- fst ?m = _ /\ _ => set (res := m) end.
    assert (res =
            (Return (mkRedirect (UrlRow.original_url row) 307),
             with_urls (count_click code (urls s))
               (with_sql_log
                  (sql_log s ++ [select_urls_by_code code; insert_clicks code;
                                 update_urls_click code])
                  (with_clicks
                     (clicks s ++ [ClickRow.mk code (header_user_agent request)
                                     (client_host request) (header_referer request)])
                     s)))) as ->.
    { unfold res. destruct (UrlRow.expires_at row) as [e|]; [|done].
      destruct Hlive as [->| ->]; [done|]. by destruct (truthy e). }
    cbn [fst snd urls clicks with_urls with_sql_log with_clicks].
    split; [done|]. split; [|split; [|done]].
    + by rewrite row_of_code_count_click_eq, Hrow.
    + intros k Hne. by apply row_of_code_count_click_ne.
Qed.


(** X13. [delete_url] answers 404 for a code without a row and changes
    nothing then. For a stored code it removes the row, the click rows
    and the cache entry of that code and of no other; afterwards
    [redirect_url] answers 404 for the code and, on a cache of capacity at
    least one, [get_original_url] reports it not found. *)
Theorem delete_url_removes_mapping
    (expired_now : string -> outcome bool) (code : string) (request : Request)
    (s : App) :
  (row_of_code code (urls s) = None ->
     fst (delete_url code s) = Raise (HTTPException 404) /\
     urls (snd (delete_url code s)) = urls s /\
     clicks (snd (delete_url code s)) = clicks s /\
     cache (snd (delete_url code s)) = cache s) /\
  (forall row,
     row_of_code code (urls s) = Some row ->
     exists s',
       delete_url code s =
         (Return ("Successfully deleted short code '" +:+ code +:+ "'"), s') /\
       row_of_code code (urls s') = None /\
       (forall k, k <> code -> row_of_code k (urls s') = row_of_code k (urls s)) /\
       clicks s' =
         List.filter (fun c => negb (bool_decide (ClickRow.short_code c = code)))
           (clicks s) /\
       cached code s' = None /\
       (forall k, k <> code -> cached k s' = cached k s) /\
       fst (redirect_url expired_now code request s') = Raise (HTTPException 404) /\
       (1 <= capacity s -> fst (get_original_url code s') = Return None)).
Proof.
  rewrite delete_url_eval. split.
  - by intros ->.
  - intros row ->. eexists. split; [reflexivity|].
    cbn [urls clicks cache with_cache with_urls with_sql_log with_clicks].
    assert (row_of_code code
              (List.filter (fun r => negb (bool_decide (UrlRow.short_code r = code)))
                 (urls s)) = None) as Hgone by apply row_of_code_delete_eq.
    split; [exact Hgone|]. split; [|split; [done|split; [|split; [|split]]]].
    + intros k Hne. by apply row_of_code_delete_ne.
    + unfold cached, entries. simpl. apply assoc_remove_key_eq.
    + intros k Hne. unfold cached, entries. simpl. by apply assoc_remove_key_ne.
    + rewrite redirect_url_eval. cbv zeta.
      cbn [urls clicks cache with_cache with_urls with_sql_log with_clicks].
      by rewrite Hgone.
    + intros Hcap.
      match goal with |- fst (get_original_url code ?st) = _ => set (s' := st) end.
      destruct (lookup_miss code s') as (s'' & -> & _).
      * done.
      * unfold s', cached, entries. simpl. apply assoc_remove_key_eq.
      * unfold s'. cbn [urls with_cache with_urls]. by rewrite Hgone.
Qed.

(** X14. [save_url] stores the row when the code is free and raises 500,
    leaving the table as it was, when the code is taken; it never touches
    the cache, so a code that a lookup has cached as not found is still
    reported not found after [save_url] has stored it. *)
Theorem save_url_leaves_cache_alone (code url : string) (s : App) :
  (taken code s = true ->
     fst (save_url code url s) = Raise (HTTPException 500) /\
     urls (snd (save_url code url s)) = urls s /\
     cache (snd (save_url code url s)) = cache s) /\
  (taken code s = false ->
     exists s',
       save_url code url s = (Return tt, s') /\
       row_of_code code (urls s') = Some (UrlRow.mk code url 0 false None) /\
       (forall k, k <> code -> row_of_code k (urls s') = row_of_code k (urls s)) /\
       cache s' = cache s /\
       (cached code s = Some (Some NOT_FOUND) ->
          fst (get_original_url code s') = Return None)).
Proof.
  unfold taken, save_url, execute. unfold_m. simpl.
  destruct (row_of_code code (urls s)) as [row|] eqn:Hrow; (split; [done|]); [done|].
  intros _. eexists. split; [reflexivity|]. simpl.
  split; [by apply row_of_code_snoc|]. split; [|split; [done|]].
  - intros k Hne. by apply row_of_code_snoc_other.
  - intros Hneg.
    match goal with |- fst (get_original_url code ?st) = _ => set (s' := st) end.
    destruct (lookup_hit code s' NOT_FOUND Hneg) as (s'' & -> & _). reflexivity.
Qed.

(** X18. [cache_clear] repairs any cache. Whatever the cache held, stale
    entries included, after [cache_clear] it is empty with both counters
    at zero and its capacity kept, the table is untouched, and (no stored
    URL being the marker text, capacity at least one) every
    [get_original_url] answers what the table holds. *)
Theorem cache_clear_restores_agreement (timestamp : string) (s : App) :
  no_marker_url s -> 1 <= capacity s ->
  exists s',
    cache_clear timestamp s = (Return ("Cache cleared", timestamp), s') /\
    entries (cache s') = [] /\
    URLCache.hits (cache s') = 0 /\ URLCache.misses (cache s') = 0 /\
    capacity s' = capacity s /\ urls s' = urls s /\ clicks s' = clicks s /\
    forall code,
      fst (get_original_url code s') =
        Return (UrlRow.original_url <$> row_of_code code (urls s)).
Proof.
  intros Hnm Hcap. eexists. split; [reflexivity|].
  cbn [cache urls clicks with_cache]. repeat split.
  intros code.
  match goal with |- fst (get_original_url code ?st) = _ => set (s' := st) end.
  apply (coherent_lookup s' code); try done.
  intros k v Hin. simpl in Hin. by apply elem_of_nil in Hin.
Qed.

Lemma cache_clear_restores_agreement_witness :
  cached "ghost" example_app_ghost_cached = Some (Some NOT_FOUND) /\
  exists s',
    cache_clear "now" example_app_ghost_cached = (Return ("Cache cleared", "now"), s') /\
    entries (cache s') = [] /\
    fst (get_original_url "promo1" s') = Return (Some "https://example.com/sale").
Proof.
  split; [reflexivity|].
  destruct (cache_clear_restores_agreement "now" example_app_ghost_cached)
    as (s' & Hrun & Hempty & _ & _ & _ & _ & _ & Hlookup).
  - intros row Hin. simpl in Hin. apply list_elem_of_singleton in Hin. by subst row.
  - by vm_compute.
  - exists s'. split; [exact Hrun|]. split; [exact Hempty|]. apply Hlookup.
Defined.

(** X19. With a limit of zero or less no request is ever admitted, and
    the rejection itself fails: a client without a kept timestamp makes
    [check_rate_limit] raise [IndexError], at its first check and at
    every later one. *)
Theorem check_rate_limit_without_limit
    (LIMIT WINDOW : Z) (ip : string) (times : list Q) (s : App) :
  LIMIT <= 0 ->
  timestamps ip s = [] ->
  fst (checks LIMIT WINDOW ip times s) = map (fun _ => Raise IndexError) times /\
  timestamps ip (snd (checks LIMIT WINDOW ip times s)) = [].
Proof.
  intros HL. revert s. induction times as [|now times IH]; intros s Hfresh; [done|].
  cbn [checks map]. rewrite check_rate_limit_eval. cbv zeta. rewrite Hfresh.
  cbn [kept List.filter length].
  destruct (_ >=? _) eqn:E.
  - destruct (IH (with_tracker (<[ip := []]> (rate_limit_tracker s)) s)) as [IH1 IH2];
      [apply timestamps_with_tracker|].
    destruct (checks LIMIT WINDOW ip times _) as [rs s'']. simpl in *.
    by rewrite IH1.
  - assert (~ LIMIT <= Z.of_nat 0) as Hn by (rewrite <- Z.geb_le; by rewrite E).
    simpl in Hn. lia.
Qed.

Lemma check_rate_limit_without_limit_witness :
  fst (checks 0 60 "10.0.0.1" [0; 1; 100]%Q example_app) =
    [Raise IndexError; Raise IndexError; Raise IndexError].
Proof.
  apply (check_rate_limit_without_limit 0 60 "10.0.0.1" [0; 1; 100]%Q example_app).
  - lia.
  - reflexivity.
Defined.
